(** * Tower of Hanoi visualisation: the move planner and the playback
      controller of [App.svelte]

    The component keeps its state in module-level variables ([disks],
    [rods], [moves], [currentMoveIndex], [isPlaying], [speed],
    [totalMoves], [intervalId], [startTime]) and mutates them from event
    handlers and from one interval callback.  The embedding below threads
    that state explicitly through every function, in the order of the
    assignments of the source.

    Conventions.
    - A rod is a JavaScript array whose last element is the top disk:
      [pop] removes the last element, a push appends.  Rods are kept as
      lists in that very order.
    - [rods] is an array of rods read and written by index; reading past
      its end gives [undefined], and calling [.pop()] on it or spreading
      it raises a [TypeError].
    - [calculateMoves] recurses without any bound of its own; the model
      takes the depth of call stack that is available and answers [None]
      when the recursion does not bottom out within it (the engine's
      [RangeError]). *)

From Stdlib Require Import ZArith Lia List.
From stdpp Require Import base tactics option list list_numbers.

Local Open Scope Z_scope.

(** ** Data *)

Record DiskType : Type := mkDisk {
  id : Z;
  size : Z    (* larger number = wider disk *)
}.

Record Move : Type := mkMove {
  from : nat;  (* rod index *)
  to : nat     (* rod index *)
}.

(** The module-level variables.  The last two fields are not variables of
    the component: they are the browser's table of live intervals (id and
    period) and the id that the next [setInterval] hands out. *)
Record State : Type := mkState {
  disks : Z;
  rods : list (list DiskType);
  moves : list Move;
  currentMoveIndex : nat;
  isPlaying : bool;
  speed : Z;
  totalMoves : nat;
  intervalId : option nat;
  startTime : option Z;
  liveIntervals : list (nat * Z);
  nextInterval : nat
}.

Definition withDisks (v : Z) (s : State) : State :=
  mkState v (rods s) (moves s) (currentMoveIndex s) (isPlaying s) (speed s)
    (totalMoves s) (intervalId s) (startTime s) (liveIntervals s) (nextInterval s).

Definition withRods (v : list (list DiskType)) (s : State) : State :=
  mkState (disks s) v (moves s) (currentMoveIndex s) (isPlaying s) (speed s)
    (totalMoves s) (intervalId s) (startTime s) (liveIntervals s) (nextInterval s).

Definition withMoves (v : list Move) (s : State) : State :=
  mkState (disks s) (rods s) v (currentMoveIndex s) (isPlaying s) (speed s)
    (totalMoves s) (intervalId s) (startTime s) (liveIntervals s) (nextInterval s).

Definition withIndex (v : nat) (s : State) : State :=
  mkState (disks s) (rods s) (moves s) v (isPlaying s) (speed s)
    (totalMoves s) (intervalId s) (startTime s) (liveIntervals s) (nextInterval s).

Definition withPlaying (v : bool) (s : State) : State :=
  mkState (disks s) (rods s) (moves s) (currentMoveIndex s) v (speed s)
    (totalMoves s) (intervalId s) (startTime s) (liveIntervals s) (nextInterval s).

Definition withSpeed (v : Z) (s : State) : State :=
  mkState (disks s) (rods s) (moves s) (currentMoveIndex s) (isPlaying s) v
    (totalMoves s) (intervalId s) (startTime s) (liveIntervals s) (nextInterval s).

Definition withTotalMoves (v : nat) (s : State) : State :=
  mkState (disks s) (rods s) (moves s) (currentMoveIndex s) (isPlaying s) (speed s)
    v (intervalId s) (startTime s) (liveIntervals s) (nextInterval s).

Definition withIntervalId (v : option nat) (s : State) : State :=
  mkState (disks s) (rods s) (moves s) (currentMoveIndex s) (isPlaying s) (speed s)
    (totalMoves s) v (startTime s) (liveIntervals s) (nextInterval s).

Definition withStartTime (v : option Z) (s : State) : State :=
  mkState (disks s) (rods s) (moves s) (currentMoveIndex s) (isPlaying s) (speed s)
    (totalMoves s) (intervalId s) v (liveIntervals s) (nextInterval s).

Definition withIntervals (v : list (nat * Z)) (n : nat) (s : State) : State :=
  mkState (disks s) (rods s) (moves s) (currentMoveIndex s) (isPlaying s) (speed s)
    (totalMoves s) (intervalId s) (startTime s) v n.

(** ** Exceptions *)

Inductive JsError : Type := TypeError | RangeError.

(** What a handler leaves behind: the state it reached, and the exception
    if it stopped on one (assignments made before the throw stay). *)
Inductive outcome : Type :=
| Ok (s : State)
| Throw (e : JsError) (s : State).

Definition andThen (o : outcome) (k : State -> outcome) : outcome :=
  match o with
  | Ok s => k s
  | Throw e s => Throw e s
  end.

Notation "'run' s <- o ; k" := (andThen o (fun s => k))
  (at level 10, s name, o at level 100, k at level 200).

(** ** The browser's intervals *)

(** [window.setInterval(callback, period)]: a fresh id, now live. *)
Definition setInterval (period : Z) (s : State) : nat * State :=
  (nextInterval s,
   withIntervals (liveIntervals s ++ [(nextInterval s, period)]) (S (nextInterval s)) s).

(** [clearInterval(id)]. *)
Definition clearInterval (i : nat) (s : State) : State :=
  withIntervals (filter (fun p => fst p ≠ i) (liveIntervals s)) (nextInterval s) s.

Definition isLive (i : nat) (s : State) : bool :=
  bool_decide (i ∈ (fst <$> liveIntervals s)).

(** Truthiness of [intervalId : number | null]: [null] and [0] are falsy. *)
Definition truthyId (o : option nat) : option nat :=
  match o with
  | Some (S i) => Some (S i)
  | _ => None
  end.

(** Truthiness of [startTime : number | null]. *)
Definition truthyTime (o : option Z) : bool :=
  match o with
  | Some t => negb (t =? 0)
  | None => false
  end.

(** ** The move planner *)

(** [calculateMoves(n, source, target, auxiliary)], with [depth] frames of
    call stack available.  The source appends each sub-plan with
    [moves.push(...subPlan)], which hands the sub-plan over as the
    arguments of one call; an engine bounds how many arguments a call may
    take, and an array how many entries it may hold.  Neither bound is
    modelled, so the definition is the code for plans short enough to be
    spread: the disk counts of the slider (3 to 10) and the range the
    specification tests (1 to 12) are well within it. *)
Fixpoint calculateMoves (depth : nat) (n : Z) (source target auxiliary : nat)
  : option (list Move) :=
  match depth with
  | O => None
  | S depth' =>
      if n =? 1 then Some [mkMove source target]
      else
        match calculateMoves depth' (n - 1) source auxiliary target with
        | None => None
        | Some first =>
            match calculateMoves depth' (n - 1) auxiliary target source with
            | None => None
            | Some second => Some (first ++ [mkMove source target] ++ second)
            end
        end
  end.

(** ** The playback controller *)

(** [Array.from({length: numDisks}, (_, i) => ({id: i, size: numDisks - i}))];
    a negative length gives the empty array. *)
Definition initialRod (numDisks : Z) : list DiskType :=
  (fun i => mkDisk i (numDisks - i)) <$> seqZ 0 numDisks.

Definition initializeGame (depth : nat) (numDisks : Z) (s : State) : outcome :=
  let s := withDisks numDisks s in
  let s := withRods [initialRod numDisks; []; []] s in
  match calculateMoves depth numDisks 0 2 1 with
  | None => Throw RangeError s
  | Some ms =>
      let s := withMoves ms s in
      let s := withTotalMoves (length (moves s)) s in
      Ok (withIndex 0 s)
  end.

(** [array.pop()]: the last element, if any, and what is left. *)
Definition pop (rod : list DiskType) : option DiskType * list DiskType :=
  (last rod, removelast rod).

Definition stopAnimation (s : State) : State :=
  let s := withPlaying false s in
  match truthyId (intervalId s) with
  | Some i => withIntervalId None (clearInterval i s)
  | None => s
  end.

Definition executeMove (s : State) : outcome :=
  if (length (moves s) <=? currentMoveIndex s)%nat then
    (* the same statements as the body of stopAnimation *)
    let s := withPlaying false s in
    match truthyId (intervalId s) with
    | Some i => Ok (withIntervalId None (clearInterval i s))
    | None => Ok s
    end
  else
    match moves s !! currentMoveIndex s with
    | None => Throw TypeError s
    | Some move =>
        match rods s !! from move with
        | None => Throw TypeError s
        | Some rod =>
            let '(disk, rest) := pop rod in
            let s := withRods (<[from move := rest]> (rods s)) s in
            match disk with
            | Some d =>
                match rods s !! to move with
                | None => Throw TypeError s
                | Some dest =>
                    let s := withRods (<[to move := dest ++ [d]]> (rods s)) s in
                    Ok (withIndex (S (currentMoveIndex s)) s)
                end
            | None => Ok (withIndex (S (currentMoveIndex s)) s)
            end
        end
    end.

(** The callback that [startAnimation] hands to [setInterval]. *)
Definition intervalCallback (s : State) : outcome :=
  run s <- executeMove s;
  if (length (moves s) <=? currentMoveIndex s)%nat then Ok (stopAnimation s) else Ok s.

(** [now] is the value of [Date.now()] at the call. *)
Definition startAnimation (now : Z) (s : State) : State :=
  if (0 <? length (moves s))%nat
     && (currentMoveIndex s <? length (moves s))%nat
     && negb (isPlaying s)
  then
    let s := withPlaying true s in
    let s := if truthyTime (startTime s) then s else withStartTime (Some now) s in
    let '(i, s) := setInterval (speed s) s in
    withIntervalId (Some i) s
  else s.

Definition resetGame (depth : nat) (s : State) : outcome :=
  let s := stopAnimation s in
  let s := withStartTime None s in
  initializeGame depth (disks s) s.

Definition stepForward (s : State) : outcome :=
  if (currentMoveIndex s <? length (moves s))%nat then executeMove s else Ok s.

Definition stepBackward (s : State) : outcome :=
  if (0 <? currentMoveIndex s)%nat then
    let s := withIndex (pred (currentMoveIndex s)) s in
    match moves s !! currentMoveIndex s with
    | None => Throw TypeError s
    | Some move =>
        match rods s !! to move with
        | None => Throw TypeError s
        | Some rod =>
            let '(disk, rest) := pop rod in
            let s := withRods (<[to move := rest]> (rods s)) s in
            match disk with
            | Some d =>
                match rods s !! from move with
                | None => Throw TypeError s
                | Some dest => Ok (withRods (<[from move := dest ++ [d]]> (rods s)) s)
                end
            | None => Ok s
            end
        end
    end
  else Ok s.

Definition updateSpeed (now : Z) (newSpeed : Z) (s : State) : State :=
  let s := withSpeed newSpeed s in
  if isPlaying s then startAnimation now (stopAnimation s) else s.

Definition updateDisks (depth : nat) (newDisks : Z) (s : State) : outcome :=
  initializeGame depth newDisks s.

(** The browser fires interval [i]: its callback runs if [i] is still live. *)
Definition fire (i : nat) (s : State) : outcome :=
  if isLive i s then intervalCallback s else Ok s.

(** The variables as the script declares them, before [onMount]. *)
Definition initialState : State :=
  mkState 3 [[]; []; []] [] 0 false 1000 0 None None [] 1.

(** ** Vocabulary of the properties *)

(** The planner unfolded on the number of disks above the first one:
    [hanoi k] is the plan for [k + 1] disks. *)
Fixpoint hanoi (k : nat) (source target auxiliary : nat) : list Move :=
  match k with
  | O => [mkMove source target]
  | S k' =>
      hanoi k' source auxiliary target
        ++ [mkMove source target]
        ++ hanoi k' auxiliary target source
  end.

(** The [k] smallest disks of a game of [N] disks, widest first. *)
Fixpoint tower (N : Z) (k : nat) : list DiskType :=
  match k with
  | O => []
  | S k' => mkDisk (N - Z.of_nat k) (Z.of_nat k) :: tower N k'
  end.

(** Sizes strictly increase from the top (last element) to the bottom
    (first element): nothing rests on a smaller disk. *)
Definition rodOrdered (rod : list DiskType) : Prop :=
  forall (i j : nat) (a b : DiskType),
    (i < j)%nat -> rod !! i = Some a -> rod !! j = Some b -> size b < size a.

(** The same, checked on neighbours. *)
Fixpoint rodSorted (rod : list DiskType) : bool :=
  match rod with
  | a :: (b :: _) as rest => (size b <? size a) && rodSorted rest
  | _ => true
  end.

Definition allAbove (k : Z) (rod : list DiskType) : Prop :=
  Forall (fun d => k < size d) rod.

(** A move that finds a disk: the top of rod [src] goes on top of rod [dst]. *)
Definition transfer (src dst : nat) (rs : list (list DiskType))
  : option (list (list DiskType)) :=
  match rs !! src with
  | None => None
  | Some rod =>
      match last rod with
      | None => None
      | Some d =>
          match <[src := removelast rod]> rs !! dst with
          | None => None
          | Some dest => Some (<[dst := dest ++ [d]]> (<[src := removelast rod]> rs))
          end
      end
  end.

(** A run of moves in which every move finds a disk and every position,
    the first and the last included, has all its rods ordered. *)
Inductive legalRun : list (list DiskType) -> list Move -> list (list DiskType) -> Prop :=
| legalRun_nil rs :
    Forall rodOrdered rs -> legalRun rs [] rs
| legalRun_cons rs m ms rs' rs'' :
    Forall rodOrdered rs ->
    transfer (from m) (to m) rs = Some rs' ->
    legalRun rs' ms rs'' ->
    legalRun rs (m :: ms) rs''.

(** States that [stepForward] and [stepBackward] reach from the state that
    [initializeGame(n)] sets up. *)
Inductive reachable (n : Z) : State -> Prop :=
| reachable_init depth s0 s :
    initializeGame depth n s0 = Ok s -> reachable n s
| reachable_forward s s' :
    reachable n s -> stepForward s = Ok s' -> reachable n s'
| reachable_backward s s' :
    reachable n s -> stepBackward s = Ok s' -> reachable n s'.

(** [executeMove] called [k] times in a row. *)
Fixpoint executeMoves (k : nat) (s : State) : outcome :=
  match k with
  | O => Ok s
  | S k' => run s <- executeMove s; executeMoves k' s
  end.

(** Every move names rods that exist. *)
Definition movesInRange (s : State) : Prop :=
  Forall (fun m => (from m < length (rods s))%nat /\ (to m < length (rods s))%nat) (moves s).

(** A session state as the data model has it: moves between existing
    rods, and a move index between 0 and [moves.length]. *)
Definition wellFormed (s : State) : Prop :=
  movesInRange s /\ (currentMoveIndex s <= length (moves s))%nat.

(** What holds of every reachable state of a game of [n] disks: the rods
    are where the first [currentMoveIndex] moves of the plan take the
    starting position, along a legal run, and the remaining moves are a
    legal run to the solved position. *)
Definition onPlan (n : Z) (s : State) : Prop :=
  1 <= n
  /\ (currentMoveIndex s <= length (moves s))%nat
  /\ legalRun [initialRod n; []; []] (take (currentMoveIndex s) (moves s)) (rods s)
  /\ legalRun (rods s) (drop (currentMoveIndex s) (moves s)) [[]; []; initialRod n].

(** The state an outcome leaves, thrown or not. *)
Definition stateOf (o : outcome) : State :=
  match o with
  | Ok s => s
  | Throw _ s => s
  end.

(** ** Sample sessions *)

(** The component once mounted: three disks, nothing moved. *)
Definition game3 : State := stateOf (initializeGame 3 3 initialState).

(** One step into the three-disk game. *)
Definition game3_step1 : State := stateOf (stepForward game3).

(** Play pressed on the mounted component, at clock reading 5000. *)
Definition playing3 : State := startAnimation 5000 game3.

(** A position no game reaches: the first move of the three-disk plan is
    due and its source rod is empty. *)
Definition emptySource : State := withRods [[]; []; []] game3.

(** ** The component in its page *)

(** [onMount(() => initializeGame(disks))]. *)
Definition onMount (depth : nat) (s : State) : outcome :=
  initializeGame depth (disks s) s.

(** [onDestroy(() => { if (intervalId) clearInterval(intervalId); })]. *)
Definition onDestroy (s : State) : State :=
  match truthyId (intervalId s) with
  | Some i => clearInterval i s
  | None => s
  end.

(** What the page can deliver to the component.  The range input is bound
    to [disks] ([bind:value]), so moving the thumb assigns [disks] before
    its [change] handler runs [initializeGame(disks)]; the two are kept
    apart since an interval may tick in between.  [now] is the reading of
    [Date.now()] that the handler would take. *)
Inductive Event : Type :=
| SliderInput (n : Z)
| SliderChange
| SelectSpeed (now : Z) (ms : Z)
| ClickPlayPause (now : Z)
| ClickStepBack
| ClickStepForward
| ClickReset
| Tick (i : nat).

Definition handle (depth : nat) (e : Event) (s : State) : outcome :=
  match e with
  | SliderInput n => Ok (withDisks n s)
  | SliderChange => initializeGame depth (disks s) s
  | SelectSpeed now ms => Ok (updateSpeed now ms s)
  | ClickPlayPause now => Ok (if isPlaying s then stopAnimation s else startAnimation now s)
  | ClickStepBack => stepBackward s
  | ClickStepForward => stepForward s
  | ClickReset => resetGame depth s
  | Tick i => fire i s
  end.

(** The range input has [min="3" max="10"]. *)
Definition fromPage (e : Event) : Prop :=
  match e with
  | SliderInput n => 3 <= n <= 10
  | _ => True
  end.

(** The states of a mounted component: what [onMount] sets up, and what
    the handlers make of it, event after event. *)
Inductive session (depth : nat) : State -> Prop :=
| session_mount s :
    onMount depth initialState = Ok s -> session depth s
| session_event s e s' :
    session depth s -> fromPage e -> handle depth e s = Ok s' -> session depth s'.

(** A handler called [k] times in a row. *)
Fixpoint repeatedly (f : State -> outcome) (k : nat) (s : State) : outcome :=
  match k with
  | O => Ok s
  | S k' => run s <- f s; repeatedly f k' s
  end.

(** The two halves of the state: the game, and the playback. *)
Definition sameGame (s s' : State) : Prop :=
  rods s' = rods s /\ moves s' = moves s
  /\ currentMoveIndex s' = currentMoveIndex s /\ totalMoves s' = totalMoves s.

Definition samePlayback (s s' : State) : Prop :=
  isPlaying s' = isPlaying s /\ speed s' = speed s /\ intervalId s' = intervalId s
  /\ liveIntervals s' = liveIntervals s /\ nextInterval s' = nextInterval s.

(** Playing means exactly one live interval, the one [intervalId] names,
    ticking at the current [speed]; not playing means none at all. *)
Definition timerSound (s : State) : Prop :=
  (1 <= nextInterval s)%nat
  /\ if isPlaying s
     then exists i, intervalId s = Some i
                    /\ (1 <= i < nextInterval s)%nat
                    /\ liveIntervals s = [(i, speed s)]
     else intervalId s = None /\ liveIntervals s = [].

(** The game on the rods is the plan of some disk count of the slider,
    followed up to [currentMoveIndex]. *)
Definition gameSound (s : State) : Prop :=
  3 <= disks s <= 10
  /\ exists k : nat,
       3 <= Z.of_nat (S k) <= 10
       /\ moves s = hanoi k 0 2 1
       /\ totalMoves s = length (moves s)
       /\ onPlan (Z.of_nat (S k)) s.

(** A move with its two rods exchanged. *)
Definition reverseMove (m : Move) : Move := mkMove (to m) (from m).

(** ** More sample sessions *)

(** Playing, and stepped by hand to the end of the plan. *)
Definition playing3_at_end : State := stateOf (repeatedly stepForward 7 playing3).

(** ** The planner *)

Example calculateMoves_1 : calculateMoves 1 1 0 2 1 = Some [mkMove 0 2].
Proof. reflexivity. Qed.

Lemma calculateMoves_hanoi (k : nat) :
  forall (depth : nat) (a b c : nat),
    (k < depth)%nat ->
    calculateMoves depth (Z.of_nat (S k)) a b c = Some (hanoi k a b c).
Proof.
  induction k as [|k IH]; intros depth a b c Hd.
  - destruct depth as [|depth]; [lia|]. reflexivity.
  - destruct depth as [|depth]; [lia|].
    cbn [calculateMoves hanoi].
    replace (Z.of_nat (S (S k)) =? 1) with false by (symmetry; apply Z.eqb_neq; lia).
    replace (Z.of_nat (S (S k)) - 1) with (Z.of_nat (S k)) by lia.
    rewrite !IH by lia. reflexivity.
Qed.

Lemma calculateMoves_nonpos (depth : nat) :
  forall (n : Z) (a b c : nat), n <= 0 -> calculateMoves depth n a b c = None.
Proof.
  induction depth as [|depth IH]; intros n a b c Hn; [reflexivity|].
  cbn [calculateMoves].
  replace (n =? 1) with false by (symmetry; apply Z.eqb_neq; lia).
  rewrite IH by lia. reflexivity.
Qed.

Lemma calculateMoves_shallow (depth : nat) :
  forall (n : Z) (a b c : nat), Z.of_nat depth < n -> calculateMoves depth n a b c = None.
Proof.
  induction depth as [|depth IH]; intros n a b c Hn; [reflexivity|].
  cbn [calculateMoves].
  replace (n =? 1) with false by (symmetry; apply Z.eqb_neq; lia).
  rewrite IH by lia. reflexivity.
Qed.

Lemma calculateMoves_Some (depth : nat) (n : Z) (a b c : nat) (ms : list Move) :
  calculateMoves depth n a b c = Some ms ->
  exists k : nat, n = Z.of_nat (S k) /\ (k < depth)%nat /\ ms = hanoi k a b c.
Proof.
  intros H.
  destruct (Z_le_gt_dec n 0) as [Hle|Hgt].
  { rewrite calculateMoves_nonpos in H by assumption. discriminate. }
  destruct (Z_lt_le_dec (Z.of_nat depth) n) as [Hlt|Hge].
  { rewrite calculateMoves_shallow in H by assumption. discriminate. }
  exists (Z.to_nat (n - 1)).
  assert (Hn : n = Z.of_nat (S (Z.to_nat (n - 1)))) by lia.
  split; [exact Hn|]. split; [lia|].
  rewrite Hn in H at 1. rewrite calculateMoves_hanoi in H by lia. congruence.
Qed.

Lemma length_hanoi (k : nat) :
  forall a b c : nat, Z.of_nat (length (hanoi k a b c)) = 2 ^ Z.of_nat (S k) - 1.
Proof.
  induction k as [|k IH]; intros a b c; [reflexivity|].
  cbn [hanoi]. rewrite !length_app, !Nat2Z.inj_add, !IH. cbn [length].
  replace (Z.of_nat (S (S k))) with (Z.succ (Z.of_nat (S k))) by lia.
  rewrite Z.pow_succ_r by lia. lia.
Qed.

(** ** Rods *)

Lemma tower_seqZ (N : Z) (k : nat) :
  tower N k = (fun i => mkDisk i (N - i)) <$> seqZ (N - Z.of_nat k) (Z.of_nat k).
Proof.
  induction k as [|k IH]; [reflexivity|].
  rewrite seqZ_cons by lia. cbn [tower fmap list_fmap].
  f_equal; [f_equal; lia|].
  rewrite IH. f_equal. f_equal; lia.
Qed.

Lemma initialRod_tower (k : nat) : initialRod (Z.of_nat k) = tower (Z.of_nat k) k.
Proof.
  rewrite tower_seqZ. unfold initialRod. f_equal. f_equal. lia.
Qed.

Lemma length_tower (N : Z) (k : nat) : length (tower N k) = k.
Proof. induction k as [|k IH]; [reflexivity|]. cbn [tower length]. by rewrite IH. Qed.

Lemma rodOrdered_nil : rodOrdered [].
Proof. intros i j a b _ H. rewrite lookup_nil in H. discriminate. Qed.

Lemma rodOrdered_app_l (l1 l2 : list DiskType) : rodOrdered (l1 ++ l2) -> rodOrdered l1.
Proof.
  intros H i j a b Hij Ha Hb.
  apply (H i j a b Hij); by apply lookup_app_l_Some.
Qed.

Lemma rodOrdered_snoc (l : list DiskType) (d : DiskType) :
  rodOrdered l -> allAbove (size d) l -> rodOrdered (l ++ [d]).
Proof.
  intros Hl Hd i j a b Hij Ha Hb.
  assert (Hj : (j < length (l ++ [d]))%nat) by (eapply lookup_lt_Some; eassumption).
  rewrite length_app in Hj. cbn [length] in Hj.
  assert (Hia : l !! i = Some a) by (rewrite lookup_app_l in Ha by lia; exact Ha).
  destruct (decide (j = length l)) as [->|Hne].
  - rewrite list_lookup_middle in Hb by reflexivity.
    injection Hb as <-.
    unfold allAbove in Hd. rewrite Forall_lookup in Hd. exact (Hd i a Hia).
  - rewrite lookup_app_l in Hb by lia. exact (Hl i j a b Hij Hia Hb).
Qed.

Lemma rodOrdered_removelast (l : list DiskType) : rodOrdered l -> rodOrdered (removelast l).
Proof.
  intros H. destruct (last l) as [d|] eqn:E.
  - apply last_Some in E as [l' ->]. rewrite removelast_last.
    exact (rodOrdered_app_l _ _ H).
  - apply last_None in E as ->. exact H.
Qed.

Lemma rodOrdered_cons (a : DiskType) (l : list DiskType) :
  rodOrdered (a :: l) <-> Forall (fun b => size b < size a) l /\ rodOrdered l.
Proof.
  split.
  - intros H. split.
    + apply Forall_lookup. intros i b Hb. exact (H O (S i) a b ltac:(lia) eq_refl Hb).
    + intros i j x y Hij Hx Hy. exact (H (S i) (S j) x y ltac:(lia) Hx Hy).
  - intros [Ha Hl] i j x y Hij Hx Hy.
    destruct j as [|j]; [lia|]. cbn in Hy.
    destruct i as [|i].
    + injection Hx as <-. rewrite Forall_lookup in Ha. exact (Ha j y Hy).
    + cbn in Hx. exact (Hl i j x y ltac:(lia) Hx Hy).
Qed.

(** The check on neighbours decides the order of the whole rod. *)
Lemma rodSorted_spec (l : list DiskType) : rodSorted l = true <-> rodOrdered l.
Proof.
  induction l as [|a l IH]; [split; [intros _; apply rodOrdered_nil | reflexivity]|].
  rewrite rodOrdered_cons. destruct l as [|b l].
  - split; [intros _; split; [constructor | apply rodOrdered_nil] | reflexivity].
  - change (rodSorted (a :: b :: l)) with ((size b <? size a) && rodSorted (b :: l)).
    rewrite andb_true_iff, IH, Z.ltb_lt. split.
    + intros [Hb Hl]. split; [|exact Hl].
      constructor; [exact Hb|].
      apply rodOrdered_cons in Hl as [Hl _].
      eapply Forall_impl; [exact Hl|]. cbn. intros; lia.
    + intros [Ha Hl]. split; [|exact Hl]. by inversion Ha.
Qed.

Lemma allAbove_weaken (k k' : Z) (l : list DiskType) :
  k' <= k -> allAbove k l -> allAbove k' l.
Proof. intros Hk H. eapply Forall_impl; [exact H|]. cbn. intros; lia. Qed.

(** ** One move on the rods *)

Lemma concat_insert_perm (rs : list (list DiskType)) (i : nat) (x y : list DiskType) :
  rs !! i = Some x -> y ++ concat rs ≡ₚ x ++ concat (<[i := y]> rs).
Proof.
  intros H.
  rewrite insert_take_drop by (eapply lookup_lt_Some; exact H).
  rewrite <- (take_drop_middle rs i x H) at 1.
  rewrite !concat_app. cbn [concat].
  rewrite !(Permutation_app_comm (concat (take i rs))).
  rewrite <- !app_assoc, !app_assoc.
  rewrite (Permutation_app_comm y x). reflexivity.
Qed.

Lemma transfer_inv (src dst : nat) (rs rs' : list (list DiskType)) :
  transfer src dst rs = Some rs' ->
  exists rest d dest,
    rs !! src = Some (rest ++ [d])
    /\ <[src := rest]> rs !! dst = Some dest
    /\ rs' = <[dst := dest ++ [d]]> (<[src := rest]> rs).
Proof.
  unfold transfer. intros H.
  destruct (rs !! src) as [rod|] eqn:Hsrc; [|discriminate].
  destruct (last rod) as [d|] eqn:Hlast; [|discriminate].
  apply last_Some in Hlast as [rest ->].
  rewrite removelast_last in H.
  destruct (<[src := rest]> rs !! dst) as [dest|] eqn:Hdst; [|discriminate].
  injection H as <-. by exists rest, d, dest.
Qed.

Lemma transfer_intro (src dst : nat) (rs : list (list DiskType))
    (rest dest : list DiskType) (d : DiskType) :
  rs !! src = Some (rest ++ [d]) ->
  <[src := rest]> rs !! dst = Some dest ->
  transfer src dst rs = Some (<[dst := dest ++ [d]]> (<[src := rest]> rs)).
Proof.
  intros Hsrc Hdst. unfold transfer.
  rewrite Hsrc, last_snoc, removelast_last, Hdst. reflexivity.
Qed.

Lemma transfer_length (src dst : nat) (rs rs' : list (list DiskType)) :
  transfer src dst rs = Some rs' -> length rs' = length rs.
Proof.
  intros H. apply transfer_inv in H as (rest & d & dest & _ & _ & ->).
  by rewrite !length_insert.
Qed.

(** The mirrored move puts everything back. *)
Lemma transfer_undo (src dst : nat) (rs rs' : list (list DiskType)) :
  transfer src dst rs = Some rs' -> transfer dst src rs' = Some rs.
Proof.
  intros H. apply transfer_inv in H as (rest & d & dest & Hsrc & Hdst & ->).
  assert (Hs : (src < length rs)%nat) by (eapply lookup_lt_Some; exact Hsrc).
  assert (Hd : (dst < length (<[src := rest]> rs))%nat) by (eapply lookup_lt_Some; exact Hdst).
  erewrite transfer_intro.
  - rewrite list_insert_insert_eq, (list_insert_id _ dst dest Hdst).
    rewrite list_insert_insert_eq, (list_insert_id _ src _ Hsrc). reflexivity.
  - by apply list_lookup_insert_eq.
  - rewrite list_insert_insert_eq, (list_insert_id _ dst dest Hdst).
    by apply list_lookup_insert_eq.
Qed.

Lemma transfer_perm (src dst : nat) (rs rs' : list (list DiskType)) :
  transfer src dst rs = Some rs' -> concat rs' ≡ₚ concat rs.
Proof.
  intros H. apply transfer_inv in H as (rest & d & dest & Hsrc & Hdst & ->).
  pose proof (concat_insert_perm rs src _ rest Hsrc) as H1.
  pose proof (concat_insert_perm _ dst _ (dest ++ [d]) Hdst) as H2.
  rewrite <- !app_assoc in H1, H2.
  apply Permutation_app_inv_l in H1, H2.
  by rewrite H1, H2.
Qed.

Lemma transfer_ordered (src dst : nat) (rs rs' : list (list DiskType)) :
  transfer src dst rs = Some rs' ->
  Forall rodOrdered rs ->
  (forall dest d, rs' !! dst = Some (dest ++ [d]) -> allAbove (size d) dest) ->
  Forall rodOrdered rs'.
Proof.
  intros H Hrs Hdest.
  pose proof H as (rest & d & dest & Hsrc & Hdst & ->)%transfer_inv.
  assert (Hd : (dst < length (<[src := rest]> rs))%nat) by (eapply lookup_lt_Some; exact Hdst).
  assert (H1 : Forall rodOrdered (<[src := rest]> rs)).
  { apply Forall_insert; [exact Hrs|].
    eapply rodOrdered_app_l, Forall_lookup_1; eassumption. }
  apply Forall_insert; [exact H1|].
  apply rodOrdered_snoc.
  - eapply Forall_lookup_1; eassumption.
  - apply Hdest. by apply list_lookup_insert_eq.
Qed.

(** ** Legal runs *)

Lemma legalRun_start (rs rs' : list (list DiskType)) (ms : list Move) :
  legalRun rs ms rs' -> Forall rodOrdered rs.
Proof. intros H. by destruct H. Qed.

Lemma legalRun_end (rs rs' : list (list DiskType)) (ms : list Move) :
  legalRun rs ms rs' -> Forall rodOrdered rs'.
Proof. induction 1; assumption. Qed.

Lemma legalRun_length (rs rs' : list (list DiskType)) (ms : list Move) :
  legalRun rs ms rs' -> length rs' = length rs.
Proof.
  induction 1 as [|rs m ms rs1 rs2 _ Ht _ IH]; [reflexivity|].
  rewrite IH. by eapply transfer_length.
Qed.

Lemma legalRun_perm (rs rs' : list (list DiskType)) (ms : list Move) :
  legalRun rs ms rs' -> concat rs' ≡ₚ concat rs.
Proof.
  induction 1 as [|rs m ms rs1 rs2 _ Ht _ IH]; [reflexivity|].
  rewrite IH. by eapply transfer_perm.
Qed.

Lemma legalRun_app (rs1 rs2 rs3 : list (list DiskType)) (l1 l2 : list Move) :
  legalRun rs1 l1 rs2 -> legalRun rs2 l2 rs3 -> legalRun rs1 (l1 ++ l2) rs3.
Proof.
  induction 1 as [|rs m ms rs' rs'' Ho Ht _ IH]; intros H2; [exact H2|].
  cbn [app]. eapply legalRun_cons; eauto.
Qed.

Lemma legalRun_app_inv (l1 l2 : list Move) :
  forall rs1 rs3 : list (list DiskType),
    legalRun rs1 (l1 ++ l2) rs3 ->
    exists rs2, legalRun rs1 l1 rs2 /\ legalRun rs2 l2 rs3.
Proof.
  induction l1 as [|m l1 IH]; intros rs1 rs3 H.
  - exists rs1. split; [|exact H]. constructor. by eapply legalRun_start.
  - cbn [app] in H. inversion H as [|? ? ? rs' ? Ho Ht Hrest]; subst.
    destruct (IH _ _ Hrest) as (rs2 & Ha & Hb).
    exists rs2. split; [|exact Hb]. by eapply legalRun_cons.
Qed.

Lemma legalRun_single_inv (rs rs' : list (list DiskType)) (m : Move) :
  legalRun rs [m] rs' -> transfer (from m) (to m) rs = Some rs'.
Proof.
  intros H. inversion H as [|? ? ? rs1 ? _ Ht Hrest]; subst.
  inversion Hrest; subst. exact Ht.
Qed.

(** One legal move between two different rods, spelled out. *)
Lemma legal_move (rs : list (list DiskType)) (src dst : nat)
    (a b : list DiskType) (d : DiskType) :
  src <> dst ->
  rs !! src = Some (a ++ [d]) ->
  rs !! dst = Some b ->
  Forall rodOrdered rs ->
  allAbove (size d) b ->
  exists rs',
    transfer src dst rs = Some rs'
    /\ Forall rodOrdered rs'
    /\ rs' !! src = Some a
    /\ rs' !! dst = Some (b ++ [d])
    /\ (forall i, i <> src -> i <> dst -> rs' !! i = rs !! i).
Proof.
  intros Hne Hsrc Hdst Hrs Hb.
  assert (Hs : (src < length rs)%nat) by (eapply lookup_lt_Some; exact Hsrc).
  assert (Hd : (dst < length rs)%nat) by (eapply lookup_lt_Some; exact Hdst).
  assert (Hdst' : <[src := a]> rs !! dst = Some b)
    by (rewrite list_lookup_insert_ne by exact Hne; exact Hdst).
  pose proof (transfer_intro src dst rs a b d Hsrc Hdst') as Ht.
  eexists. split; [exact Ht|].
  assert (Hlook : <[dst := b ++ [d]]> (<[src := a]> rs) !! dst = Some (b ++ [d]))
    by (apply list_lookup_insert_eq; by rewrite length_insert).
  repeat split.
  - eapply transfer_ordered; [exact Ht|exact Hrs|].
    intros dest d' Hl. rewrite Hlook in Hl. injection Hl as Hl.
    apply app_inj_tail in Hl as [-> ->]. exact Hb.
  - rewrite list_lookup_insert_ne by congruence. by apply list_lookup_insert_eq.
  - exact Hlook.
  - intros i Hi1 Hi2. by rewrite !list_lookup_insert_ne by congruence.
Qed.

(** ** The plan is a legal run

    The textbook argument, with whatever lies under the moving tower and
    on the two other rods kept general: [k + 1] disks travel from rod
    [src] to rod [tgt] over disks that are all wider than they are. *)
Lemma hanoi_legal (N : Z) (k : nat) :
  forall (rs : list (list DiskType)) (src tgt aux : nat) (a b c : list DiskType),
    src <> tgt -> src <> aux -> tgt <> aux ->
    rs !! src = Some (a ++ tower N (S k)) ->
    rs !! tgt = Some b ->
    rs !! aux = Some c ->
    Forall rodOrdered rs ->
    allAbove (Z.of_nat (S k)) a ->
    allAbove (Z.of_nat (S k)) b ->
    allAbove (Z.of_nat (S k)) c ->
    exists rs',
      legalRun rs (hanoi k src tgt aux) rs'
      /\ rs' !! src = Some a
      /\ rs' !! tgt = Some (b ++ tower N (S k))
      /\ rs' !! aux = Some c.
Proof.
  induction k as [|k IH]; intros rs src tgt aux a b c Hst Hsa Hta Hsrc Htgt Haux Hrs Ha Hb Hc.
  - destruct (legal_move rs src tgt a b _ Hst Hsrc Htgt Hrs Hb)
      as (rs' & Ht & Ho & Hs' & Ht' & Hoth).
    exists rs'. repeat split; try assumption.
    + eapply legalRun_cons; [exact Hrs|exact Ht|]. by constructor.
    + rewrite Hoth by congruence. exact Haux.
  - set (D := mkDisk (N - Z.of_nat (S (S k))) (Z.of_nat (S (S k)))).
    change (tower N (S (S k))) with (D :: tower N (S k)) in *.
    rewrite (cons_middle D), app_assoc in Hsrc.
    destruct (IH rs src aux tgt (a ++ [D]) c b) as (rs1 & Hrun1 & Hs1 & Ha1 & Ht1);
      try assumption; try congruence.
    { apply Forall_app. split; [eapply allAbove_weaken; [|exact Ha]; lia|].
      constructor; [cbn; lia|constructor]. }
    { eapply allAbove_weaken; [|exact Hc]; lia. }
    { eapply allAbove_weaken; [|exact Hb]; lia. }
    destruct (legal_move rs1 src tgt a b D Hst Hs1 Ht1 (legalRun_end _ _ _ Hrun1) Hb)
      as (rs2 & Ht & Ho2 & Hs2 & Ht2 & Hoth).
    destruct (IH rs2 aux tgt src c (b ++ [D]) a) as (rs3 & Hrun3 & Ha3 & Ht3 & Hs3);
      try assumption; try congruence.
    { rewrite Hoth by congruence. exact Ha1. }
    { eapply allAbove_weaken; [|exact Hc]; lia. }
    { apply Forall_app. split; [eapply allAbove_weaken; [|exact Hb]; lia|].
      constructor; [cbn; lia|constructor]. }
    { eapply allAbove_weaken; [|exact Ha]; lia. }
    exists rs3. repeat split; try assumption.
    + cbn [hanoi]. eapply legalRun_app; [exact Hrun1|].
      cbn [app]. eapply legalRun_cons; [by eapply legalRun_end|exact Ht|exact Hrun3].
    + rewrite Ht3, <- app_assoc. reflexivity.
Qed.

(** From the starting position the plan ends with the whole tower on
    rod 2. *)
Lemma tower_sorted (N : Z) (k : nat) : rodSorted (tower N k) = true.
Proof.
  induction k as [|k IH]; [reflexivity|].
  destruct k as [|k]; [reflexivity|].
  change (rodSorted (tower N (S (S k))))
    with ((Z.of_nat (S k) <? Z.of_nat (S (S k))) && rodSorted (tower N (S k))).
  rewrite IH, andb_true_r. apply Z.ltb_lt. lia.
Qed.

Lemma plan_legal (k : nat) :
  let n := Z.of_nat (S k) in
  legalRun [initialRod n; []; []] (hanoi k 0 2 1) [[]; []; initialRod n].
Proof.
  intros n. unfold n. rewrite initialRod_tower.
  assert (Hrs : Forall rodOrdered [tower (Z.of_nat (S k)) (S k); []; []]).
  { repeat constructor; try apply rodOrdered_nil. apply rodSorted_spec, tower_sorted. }
  assert (Hnil : allAbove (Z.of_nat (S k)) []) by constructor.
  destruct (hanoi_legal (Z.of_nat (S k)) k
              [tower (Z.of_nat (S k)) (S k); []; []] 0%nat 2%nat 1%nat [] [] []
              ltac:(lia) ltac:(lia) ltac:(lia) eq_refl eq_refl eq_refl Hrs Hnil Hnil Hnil)
    as (rs' & Hrun & H0 & H2 & H1).
  pose proof (legalRun_length _ _ _ Hrun) as Hlen.
  destruct rs' as [|x [|y [|z [|? ?]]]]; try discriminate.
  cbn in H0, H1, H2. injection H0 as ->. injection H1 as ->. injection H2 as ->.
  exact Hrun.
Qed.

(** ** One step of the controller *)

Lemma executeMove_transfer (s : State) (m : Move) (rs' : list (list DiskType)) :
  moves s !! currentMoveIndex s = Some m ->
  transfer (from m) (to m) (rods s) = Some rs' ->
  executeMove s = Ok (withIndex (S (currentMoveIndex s)) (withRods rs' s)).
Proof.
  intros Hm Ht. unfold executeMove.
  assert (Hlt : (currentMoveIndex s < length (moves s))%nat) by (eapply lookup_lt_Some; exact Hm).
  replace (length (moves s) <=? currentMoveIndex s)%nat with false
    by (symmetry; apply Nat.leb_gt; exact Hlt).
  rewrite Hm.
  apply transfer_inv in Ht as (rest & d & dest & Hsrc & Hdst & ->).
  rewrite Hsrc. unfold pop. rewrite last_snoc, removelast_last.
  cbn [rods withRods]. rewrite Hdst. reflexivity.
Qed.

Lemma stepBackward_transfer (s : State) (j : nat) (m : Move) (rs' : list (list DiskType)) :
  currentMoveIndex s = S j ->
  moves s !! j = Some m ->
  transfer (to m) (from m) (rods s) = Some rs' ->
  stepBackward s = Ok (withRods rs' (withIndex j s)).
Proof.
  intros Hi Hm Ht. unfold stepBackward. rewrite Hi.
  cbn [Nat.ltb Nat.leb pred]. cbn [currentMoveIndex withIndex moves rods].
  rewrite Hm.
  apply transfer_inv in Ht as (rest & d & dest & Hsrc & Hdst & ->).
  rewrite Hsrc. unfold pop. rewrite last_snoc, removelast_last.
  cbn [rods withRods]. rewrite Hdst. reflexivity.
Qed.

(** The guard [if (disk)]: a move whose source rod is empty is skipped,
    and counted all the same. *)
Lemma executeMove_empty_source (s : State) (m : Move) :
  moves s !! currentMoveIndex s = Some m ->
  rods s !! from m = Some [] ->
  executeMove s = Ok (withIndex (S (currentMoveIndex s)) s).
Proof.
  intros Hm Hsrc. unfold executeMove.
  assert (Hlt : (currentMoveIndex s < length (moves s))%nat) by (eapply lookup_lt_Some; exact Hm).
  replace (length (moves s) <=? currentMoveIndex s)%nat with false
    by (symmetry; apply Nat.leb_gt; exact Hlt).
  rewrite Hm, Hsrc. cbn [pop last removelast].
  rewrite (list_insert_id _ _ _ Hsrc).
  destruct s; reflexivity.
Qed.

Lemma stepForward_executeMove (s : State) :
  (currentMoveIndex s < length (moves s))%nat -> stepForward s = executeMove s.
Proof.
  intros H. unfold stepForward.
  by replace (currentMoveIndex s <? length (moves s))%nat with true
    by (symmetry; apply Nat.ltb_lt; exact H).
Qed.

Lemma stepForward_at_end (s : State) :
  (length (moves s) <= currentMoveIndex s)%nat -> stepForward s = Ok s.
Proof.
  intros H. unfold stepForward.
  by replace (currentMoveIndex s <? length (moves s))%nat with false
    by (symmetry; apply Nat.ltb_ge; exact H).
Qed.

Lemma stepBackward_at_start (s : State) :
  currentMoveIndex s = O -> stepBackward s = Ok s.
Proof. intros H. unfold stepBackward. by rewrite H. Qed.

(** ** Reachable states stay on the plan *)

Lemma initializeGame_Ok (depth : nat) (n : Z) (s0 s : State) :
  initializeGame depth n s0 = Ok s ->
  exists k : nat,
    n = Z.of_nat (S k) /\ (k < depth)%nat
    /\ s = withIndex 0 (withTotalMoves (length (hanoi k 0 2 1))
             (withMoves (hanoi k 0 2 1)
                (withRods [initialRod n; []; []] (withDisks n s0)))).
Proof.
  unfold initializeGame. intros H.
  destruct (calculateMoves depth n 0 2 1) as [ms|] eqn:E; [|discriminate].
  apply calculateMoves_Some in E as (k & Hn & Hk & ->).
  exists k. repeat split; try assumption. by injection H as <-.
Qed.

Lemma initializeGame_total (depth : nat) (k : nat) (s0 : State) :
  (k < depth)%nat ->
  initializeGame depth (Z.of_nat (S k)) s0
  = Ok (withIndex 0 (withTotalMoves (length (hanoi k 0 2 1))
          (withMoves (hanoi k 0 2 1)
             (withRods [initialRod (Z.of_nat (S k)); []; []]
                (withDisks (Z.of_nat (S k)) s0))))).
Proof.
  intros Hk. unfold initializeGame. by rewrite calculateMoves_hanoi by exact Hk.
Qed.

Lemma onPlan_init (depth : nat) (n : Z) (s0 s : State) :
  initializeGame depth n s0 = Ok s -> onPlan n s.
Proof.
  intros H. apply initializeGame_Ok in H as (k & -> & _ & ->).
  pose proof (plan_legal k) as Hrun. cbn zeta in Hrun.
  unfold onPlan. cbn [currentMoveIndex moves rods withIndex withTotalMoves withMoves withRods].
  rewrite take_0, drop_0.
  repeat split; [lia|lia| |exact Hrun].
  constructor. by eapply legalRun_start.
Qed.

Lemma onPlan_forward (n : Z) (s s' : State) :
  onPlan n s -> stepForward s = Ok s' -> onPlan n s'.
Proof.
  intros (Hn & Hle & Hpre & Hsuf) H.
  destruct (decide (currentMoveIndex s < length (moves s))%nat) as [Hlt|Hge].
  - destruct (lookup_lt_is_Some_2 _ _ Hlt) as [m Hm].
    rewrite (drop_S _ _ _ Hm) in Hsuf.
    inversion Hsuf as [|? ? ? rs1 ? Ho Ht Hrest]; subst.
    rewrite stepForward_executeMove, (executeMove_transfer _ _ _ Hm Ht) in H by exact Hlt.
    injection H as <-.
    unfold onPlan. cbn [currentMoveIndex moves rods withIndex withRods].
    rewrite (take_S_r _ _ _ Hm).
    repeat split; [exact Hn|lia| |exact Hrest].
    eapply legalRun_app; [exact Hpre|].
    eapply legalRun_cons; [exact Ho|exact Ht|].
    constructor. by eapply legalRun_start.
  - rewrite stepForward_at_end in H by lia. injection H as <-.
    by repeat split.
Qed.

Lemma onPlan_backward (n : Z) (s s' : State) :
  onPlan n s -> stepBackward s = Ok s' -> onPlan n s'.
Proof.
  intros (Hn & Hle & Hpre & Hsuf) H.
  destruct (currentMoveIndex s) as [|j] eqn:Hi.
  - rewrite stepBackward_at_start in H by exact Hi. injection H as <-.
    unfold onPlan. rewrite Hi. by repeat split.
  - destruct (lookup_lt_is_Some_2 (moves s) j ltac:(lia)) as [m Hm].
    rewrite (take_S_r _ _ _ Hm) in Hpre.
    apply legalRun_app_inv in Hpre as (rs1 & Hpre & Hlast).
    pose proof (legalRun_single_inv _ _ _ Hlast) as Ht.
    rewrite (stepBackward_transfer s j m rs1 Hi Hm (transfer_undo _ _ _ _ Ht)) in H.
    injection H as <-.
    unfold onPlan. cbn [currentMoveIndex moves rods withIndex withRods].
    repeat split; [exact Hn|lia|exact Hpre|].
    rewrite (drop_S _ _ _ Hm).
    eapply legalRun_cons; [by eapply legalRun_start|exact Ht|exact Hsuf].
Qed.

Lemma reachable_onPlan (n : Z) (s : State) : reachable n s -> onPlan n s.
Proof.
  induction 1 as [depth s0 s H|s s' _ IH H|s s' _ IH H].
  - by eapply onPlan_init.
  - by eapply onPlan_forward.
  - by eapply onPlan_backward.
Qed.

Lemma executeMoves_run (j : nat) :
  forall (s : State) (rf : list (list DiskType)),
    (currentMoveIndex s + j <= length (moves s))%nat ->
    legalRun (rods s) (drop (currentMoveIndex s) (moves s)) rf ->
    exists rs,
      executeMoves j s = Ok (withIndex (currentMoveIndex s + j) (withRods rs s))
      /\ legalRun rs (drop (currentMoveIndex s + j) (moves s)) rf.
Proof.
  induction j as [|j IH]; intros s rf Hle Hrun.
  - exists (rods s). rewrite Nat.add_0_r. split; [|exact Hrun]. by destruct s.
  - destruct (lookup_lt_is_Some_2 (moves s) (currentMoveIndex s) ltac:(lia)) as [m Hm].
    rewrite (drop_S _ _ _ Hm) in Hrun.
    inversion Hrun as [|? ? ? rs1 ? Ho Ht Hrest]; subst.
    cbn [executeMoves]. rewrite (executeMove_transfer _ _ _ Hm Ht). cbn [andThen].
    destruct (IH (withIndex (S (currentMoveIndex s)) (withRods rs1 s)) rf) as (rs & He & Hr).
    + cbn [currentMoveIndex moves withIndex withRods]. lia.
    + exact Hrest.
    + exists rs. rewrite He. cbn [currentMoveIndex moves withIndex withRods] in *.
      replace (currentMoveIndex s + S j)%nat with (S (currentMoveIndex s) + j)%nat by lia.
      split; [reflexivity|exact Hr].
Qed.

Lemma length_initialRod (n : Z) : length (initialRod n) = Z.to_nat n.
Proof. unfold initialRod. by rewrite length_fmap, length_seqZ. Qed.

Lemma onPlan_disks (n : Z) (s : State) : onPlan n s -> concat (rods s) ≡ₚ initialRod n.
Proof.
  intros (_ & _ & Hpre & _). rewrite (legalRun_perm _ _ _ Hpre).
  cbn [concat]. by rewrite !app_nil_r.
Qed.

(** ** The timer *)

Lemma clearInterval_not_live (i : nat) (s : State) : isLive i (clearInterval i s) = false.
Proof.
  unfold isLive, clearInterval. cbn [liveIntervals withIntervals].
  apply bool_decide_eq_false. intros (p & Hp & Hin)%list_elem_of_fmap.
  apply list_elem_of_filter in Hin as [Hne _]. congruence.
Qed.

Lemma stopAnimation_stops (s : State) :
  isPlaying (stopAnimation s) = false
  /\ truthyId (intervalId (stopAnimation s)) = None
  /\ (forall i, truthyId (intervalId s) = Some i -> isLive i (stopAnimation s) = false).
Proof.
  unfold stopAnimation. cbn [intervalId withPlaying].
  destruct (truthyId (intervalId s)) as [i|] eqn:E.
  - repeat split. intros i' [= <-]. apply clearInterval_not_live.
  - repeat split; [exact E|]. intros i' [=].
Qed.

(** ** The properties of the specification *)

(** C1. For every n from 1 on (so for every n in [1, 12]), with enough
    call stack for the planner, [initializeGame(n)] puts the n disks on
    rod 0, widest at the bottom, and leaves rods 1 and 2 empty; applying
    the moves of [calculateMoves(n, 0, 2, 1)] in order with [executeMove]
    never pops from an empty rod (before the move of index j the rod it
    takes from holds a disk), and after the last move rods 0 and 1 are
    empty and rod 2 holds the n disks in their original order. *)
Theorem replay_plan_solves (depth : nat) (n : Z) (s0 : State) :
  1 <= n -> n <= Z.of_nat depth ->
  exists s,
    initializeGame depth n s0 = Ok s
    /\ calculateMoves depth n 0 2 1 = Some (moves s)
    /\ rods s = [initialRod n; []; []]
    /\ (forall (j : nat) (m : Move),
          moves s !! j = Some m ->
          exists sj rod d,
            executeMoves j s = Ok sj
            /\ currentMoveIndex sj = j
            /\ rods sj !! from m = Some rod
            /\ fst (pop rod) = Some d)
    /\ exists sf,
         executeMoves (length (moves s)) s = Ok sf
         /\ rods sf = [[]; []; initialRod n].
Proof.
  intros H1 Hd.
  assert (Hn : exists k : nat, n = Z.of_nat (S k) /\ (k < depth)%nat)
    by (exists (Z.to_nat (n - 1)); lia).
  destruct Hn as (k & -> & Hk).
  eexists. split; [apply initializeGame_total; exact Hk|].
  set (s := withIndex 0 _).
  assert (Hplan : onPlan (Z.of_nat (S k)) s)
    by (eapply (onPlan_init depth _ s0), initializeGame_total, Hk).
  destruct Hplan as (_ & _ & _ & Hsuf).
  change (currentMoveIndex s) with O in Hsuf. rewrite drop_0 in Hsuf.
  split; [|split; [|split]].
  - by apply calculateMoves_hanoi.
  - reflexivity.
  - intros j m Hm.
    pose proof (lookup_lt_Some _ _ _ Hm) as Hj.
    destruct (executeMoves_run j s _ ltac:(cbn [currentMoveIndex s withIndex]; lia)
                ltac:(rewrite drop_0; exact Hsuf)) as (rs & He & Hr).
    change (currentMoveIndex s + j)%nat with j in He, Hr.
    rewrite (drop_S _ _ _ Hm) in Hr.
    inversion Hr as [|? ? ? rs1 ? _ Ht _]; subst.
    apply transfer_inv in Ht as (rest & d & dest & Hsrc & _ & _).
    eexists _, (rest ++ [d]), d. split; [exact He|].
    repeat split; [exact Hsrc|]. cbn [pop fst]. apply last_snoc.
  - destruct (executeMoves_run (length (moves s)) s _
                ltac:(cbn [currentMoveIndex s withIndex]; lia)
                ltac:(rewrite drop_0; exact Hsuf)) as (rs & He & Hr).
    change (currentMoveIndex s + length (moves s))%nat with (length (moves s)) in He, Hr.
    rewrite drop_all in Hr. inversion Hr; subst.
    eexists. split; [exact He|reflexivity].
Qed.

Lemma replay_plan_solves_witness :
  exists s,
    initializeGame 3 3 initialState = Ok s
    /\ calculateMoves 3 3 0 2 1 = Some (moves s)
    /\ rods s = [initialRod 3; []; []]
    /\ (forall (j : nat) (m : Move),
          moves s !! j = Some m ->
          exists sj rod d,
            executeMoves j s = Ok sj
            /\ currentMoveIndex sj = j
            /\ rods sj !! from m = Some rod
            /\ fst (pop rod) = Some d)
    /\ exists sf,
         executeMoves (length (moves s)) s = Ok sf
         /\ rods sf = [[]; []; initialRod 3].
Proof. apply (replay_plan_solves 3 3 initialState); lia. Defined.

(** C2. For every n from 1 on (so for every n in [1, 12]) and whatever
    the three rods, [calculateMoves(n, source, target, auxiliary)] returns
    a sequence of exactly 2^n - 1 moves. *)
Theorem calculateMoves_count (depth : nat) (n : Z) (source target auxiliary : nat) :
  1 <= n -> n <= Z.of_nat depth ->
  exists ms,
    calculateMoves depth n source target auxiliary = Some ms
    /\ Z.of_nat (length ms) = 2 ^ n - 1.
Proof.
  intros H1 Hd.
  assert (Hn : n = Z.of_nat (S (Z.to_nat (n - 1)))) by lia.
  exists (hanoi (Z.to_nat (n - 1)) source target auxiliary). split.
  - rewrite Hn at 1. apply calculateMoves_hanoi. lia.
  - rewrite length_hanoi. by rewrite <- Hn.
Qed.

Lemma calculateMoves_count_witness :
  exists ms, calculateMoves 12 12 0 2 1 = Some ms /\ Z.of_nat (length ms) = 2 ^ 12 - 1.
Proof. apply (calculateMoves_count 12 12 0 2 1); lia. Defined.

(** C3. [calculateMoves(3, 0, 2, 1)] returns exactly the seven moves
    (0,2), (0,1), (2,1), (0,2), (1,0), (1,2), (0,2), each a pair
    (from, to). *)
Theorem calculateMoves_three (depth : nat) :
  (3 <= depth)%nat ->
  calculateMoves depth 3 0 2 1
  = Some [mkMove 0 2; mkMove 0 1; mkMove 2 1; mkMove 0 2;
          mkMove 1 0; mkMove 1 2; mkMove 0 2].
Proof.
  intros Hd. change 3 with (Z.of_nat (S 2)).
  rewrite calculateMoves_hanoi by lia. reflexivity.
Qed.

Lemma calculateMoves_three_witness :
  calculateMoves 3 3 0 2 1
  = Some [mkMove 0 2; mkMove 0 1; mkMove 2 1; mkMove 0 2;
          mkMove 1 0; mkMove 1 2; mkMove 0 2].
Proof. apply (calculateMoves_three 3). lia. Defined.

(** On the plan neither handler throws. *)
Lemma onPlan_steps_return (n : Z) (s : State) :
  onPlan n s ->
  (exists s', stepForward s = Ok s') /\ (exists s', stepBackward s = Ok s').
Proof.
  intros (Hn & Hle & Hpre & Hsuf). split.
  - destruct (decide (currentMoveIndex s < length (moves s))%nat) as [Hlt|Hge].
    + destruct (lookup_lt_is_Some_2 _ _ Hlt) as [m Hm].
      rewrite (drop_S _ _ _ Hm) in Hsuf.
      inversion Hsuf as [|? ? ? rs1 ? _ Ht _]; subst.
      eexists. rewrite stepForward_executeMove by exact Hlt.
      exact (executeMove_transfer _ _ _ Hm Ht).
    + exists s. apply stepForward_at_end. lia.
  - destruct (currentMoveIndex s) as [|j] eqn:Hi.
    + exists s. by apply stepBackward_at_start.
    + destruct (lookup_lt_is_Some_2 (moves s) j ltac:(lia)) as [m Hm].
      rewrite (take_S_r _ _ _ Hm) in Hpre.
      apply legalRun_app_inv in Hpre as (rs1 & _ & Hlast).
      pose proof (legalRun_single_inv _ _ _ Hlast) as Ht.
      eexists. exact (stepBackward_transfer s j m rs1 Hi Hm (transfer_undo _ _ _ _ Ht)).
Qed.

(** C4. In every state reached from what [initializeGame(n)] sets up by
    any sequence of [stepForward] and [stepBackward], the disk sizes of
    every rod strictly increase from the top (last element) to the bottom
    (first element): no disk rests on a smaller one.  Both handlers return
    there without an exception, so these are all the states there are. *)
Theorem rods_always_ordered (n : Z) (s : State) :
  reachable n s ->
  Forall rodOrdered (rods s)
  /\ (exists s', stepForward s = Ok s')
  /\ (exists s', stepBackward s = Ok s').
Proof.
  intros Hplan%reachable_onPlan. split.
  - destruct Hplan as (_ & _ & Hpre & _). by eapply legalRun_end.
  - by eapply onPlan_steps_return.
Qed.

Lemma game3_step1_reachable : reachable 3 game3_step1.
Proof.
  eapply (reachable_forward 3 game3).
  - by eapply (reachable_init 3 3 initialState).
  - reflexivity.
Defined.

Lemma rods_always_ordered_witness :
  Forall rodOrdered (rods game3_step1)
  /\ (exists s', stepForward game3_step1 = Ok s')
  /\ (exists s', stepBackward game3_step1 = Ok s').
Proof. apply (rods_always_ordered 3 game3_step1). exact game3_step1_reachable. Defined.

(** C5. In every reachable state with [currentMoveIndex < moves.length],
    [stepForward()] and then at once [stepBackward()] bring the rods and
    [currentMoveIndex] back to what they were before the [stepForward()]. *)
Theorem stepForward_stepBackward (n : Z) (s : State) :
  reachable n s ->
  (currentMoveIndex s < length (moves s))%nat ->
  exists s1 s2,
    stepForward s = Ok s1
    /\ stepBackward s1 = Ok s2
    /\ rods s2 = rods s
    /\ currentMoveIndex s2 = currentMoveIndex s.
Proof.
  intros (_ & _ & _ & Hsuf)%reachable_onPlan Hlt.
  destruct (lookup_lt_is_Some_2 _ _ Hlt) as [m Hm].
  rewrite (drop_S _ _ _ Hm) in Hsuf.
  inversion Hsuf as [|? ? ? rs1 ? _ Ht _]; subst.
  eexists _, _. split; [|split].
  - rewrite stepForward_executeMove by exact Hlt.
    exact (executeMove_transfer _ _ _ Hm Ht).
  - eapply (stepBackward_transfer _ (currentMoveIndex s) m).
    + reflexivity.
    + exact Hm.
    + exact (transfer_undo _ _ _ _ Ht).
  - split; reflexivity.
Qed.

Lemma stepForward_stepBackward_witness :
  exists s1 s2,
    stepForward game3_step1 = Ok s1
    /\ stepBackward s1 = Ok s2
    /\ rods s2 = rods game3_step1
    /\ currentMoveIndex s2 = currentMoveIndex game3_step1.
Proof.
  apply (stepForward_stepBackward 3 game3_step1).
  - exact game3_step1_reachable.
  - vm_compute. lia.
Defined.

(** C6. [updateDisks(5)] called while the three-disk game is playing:
    the rods are reset to the five-disk start and [currentMoveIndex] is 0,
    but playback does not stop.  [isPlaying] is still true, [intervalId]
    still names the interval started for the three-disk game, that
    interval is still live, and its next tick moves a disk of the new
    game. *)
Theorem updateDisks_while_playing :
  isPlaying playing3 = true
  /\ intervalId playing3 = Some 1%nat
  /\ exists s',
       updateDisks 5 5 playing3 = Ok s'
       /\ rods s' = [initialRod 5; []; []]
       /\ currentMoveIndex s' = 0%nat
       /\ isPlaying s' = true
       /\ intervalId s' = Some 1%nat
       /\ isLive 1 s' = true
       /\ exists s'',
            fire 1 s' = Ok s''
            /\ currentMoveIndex s'' = 1%nat
            /\ rods s'' <> rods s'.
Proof.
  split; [reflexivity|]. split; [reflexivity|].
  eexists. split; [reflexivity|].
  repeat (split; [reflexivity|]).
  eexists. split; [reflexivity|]. split; [reflexivity|].
  vm_compute. discriminate.
Qed.

(** C7, the claim as written fails: with n = 0 the test [n === 1] never
    succeeds on the way down, and no depth of call stack yields a
    sequence, empty or not. *)
Lemma calculateMoves_zero_no_result :
  ~ exists (depth : nat) (ms : list Move), calculateMoves depth 0 0 2 1 = Some ms.
Proof.
  intros (depth & ms & H). by rewrite calculateMoves_nonpos in H.
Qed.

(** C7, amended. The planner returns a plan for every n from 1 to 12,
    the range the specification tests (the slider asks for 3 to 10): a
    call stack of n frames is enough.  It is not total on the non-negative
    inputs: for n = 0, and any n below, the recursion never reaches its
    base case [n === 1] and the call returns no sequence, however deep the
    stack. *)
Theorem calculateMoves_returns_1_to_12
    (depth : nat) (n : Z) (source target auxiliary : nat) :
  (1 <= n <= 12 -> n <= Z.of_nat depth ->
   exists ms, calculateMoves depth n source target auxiliary = Some ms)
  /\ (n <= 0 -> calculateMoves depth n source target auxiliary = None).
Proof.
  split.
  - intros H1 Hd. exists (hanoi (Z.to_nat (n - 1)) source target auxiliary).
    replace n with (Z.of_nat (S (Z.to_nat (n - 1)))) at 1 by lia.
    apply calculateMoves_hanoi. lia.
  - apply calculateMoves_nonpos.
Qed.

Lemma calculateMoves_returns_1_to_12_witness :
  (exists ms, calculateMoves 4 4 0 2 1 = Some ms)
  /\ calculateMoves 50 0 0 2 1 = None.
Proof.
  split.
  - apply (proj1 (calculateMoves_returns_1_to_12 4 4 0 2 1)); lia.
  - apply (proj2 (calculateMoves_returns_1_to_12 50 0 0 2 1)). lia.
Defined.

(** C8. [initializeGame(3)] called while the three-disk game is playing,
    as [updateDisks] and the slider's [change] handler call it: it resets
    [currentMoveIndex] to 0 and stops nothing.  [isPlaying] is still true,
    [startTime] is still set, [intervalId] still holds the interval and
    that interval is still live.  [resetGame] stops the animation and
    clears [startTime] before the same call. *)
Lemma initializeGame_keeps_playing :
  exists s',
    initializeGame 3 3 playing3 = Ok s'
    /\ currentMoveIndex s' = 0%nat
    /\ isPlaying s' = true
    /\ startTime s' = Some 5000
    /\ intervalId s' = Some 1%nat
    /\ isLive 1 s' = true.
Proof. eexists. repeat split; reflexivity. Qed.

(** C9, the claim as written fails: with the source rod of the move that
    is due empty, [stepForward()] raises nothing; it returns with the rods
    as they were and [currentMoveIndex] one higher. *)
Lemma stepForward_empty_source_silent :
  moves emptySource !! currentMoveIndex emptySource = Some (mkMove 0 2)
  /\ rods emptySource !! 0%nat = Some []
  /\ stepForward emptySource = Ok (withIndex 1 emptySource)
  /\ ~ exists e s', stepForward emptySource = Throw e s'.
Proof.
  repeat split. intros (e & s' & H). discriminate H.
Qed.

(** C9, amended. If [stepForward()] is invoked in a state where the source
    rod of the current move is empty, no error is raised: the guard
    [if (disk)] skips the push, every rod is left as it was and
    [currentMoveIndex] is incremented. *)
Theorem stepForward_empty_source (s : State) (m : Move) :
  moves s !! currentMoveIndex s = Some m ->
  rods s !! from m = Some [] ->
  stepForward s = Ok (withIndex (S (currentMoveIndex s)) s).
Proof.
  intros Hm Hsrc.
  rewrite stepForward_executeMove by (eapply lookup_lt_Some; exact Hm).
  by apply (executeMove_empty_source s m).
Qed.

Lemma stepForward_empty_source_witness :
  stepForward emptySource = Ok (withIndex (S (currentMoveIndex emptySource)) emptySource).
Proof. apply (stepForward_empty_source emptySource (mkMove 0 2)); reflexivity. Defined.

(** ** No disk is made or lost *)

Lemma transfer_total (src dst : nat) (rs : list (list DiskType))
    (rod : list DiskType) (d : DiskType) :
  rs !! src = Some rod -> last rod = Some d -> (dst < length rs)%nat ->
  exists rs', transfer src dst rs = Some rs'.
Proof.
  intros Hsrc Hlast Hdst. unfold transfer. rewrite Hsrc, Hlast.
  destruct (lookup_lt_is_Some_2 (<[src := removelast rod]> rs) dst) as [dest Hd];
    [by rewrite length_insert|].
  rewrite Hd. by eexists.
Qed.

Lemma executeMove_conserves (s : State) :
  movesInRange s ->
  exists s', executeMove s = Ok s' /\ concat (rods s') ≡ₚ concat (rods s).
Proof.
  intros Hrange.
  destruct (decide (currentMoveIndex s < length (moves s))%nat) as [Hlt|Hge].
  - destruct (lookup_lt_is_Some_2 _ _ Hlt) as [m Hm].
    destruct (Forall_lookup_1 _ _ _ _ Hrange Hm) as [Hf Ht].
    destruct (lookup_lt_is_Some_2 _ _ Hf) as [rod Hrod].
    destruct (last rod) as [d|] eqn:Hlast.
    + destruct (transfer_total _ _ _ _ _ Hrod Hlast Ht) as [rs' Htr].
      eexists. split; [exact (executeMove_transfer _ _ _ Hm Htr)|].
      cbn [rods withIndex withRods]. by eapply transfer_perm.
    + apply last_None in Hlast as ->.
      eexists. split; [exact (executeMove_empty_source _ _ Hm Hrod)|]. reflexivity.
  - unfold executeMove.
    replace (length (moves s) <=? currentMoveIndex s)%nat with true
      by (symmetry; apply Nat.leb_le; lia).
    destruct (truthyId _); eexists; split; reflexivity.
Qed.

Lemma stepBackward_conserves (s : State) :
  wellFormed s ->
  exists s', stepBackward s = Ok s' /\ concat (rods s') ≡ₚ concat (rods s).
Proof.
  intros [Hrange Hle].
  destruct (currentMoveIndex s) as [|j] eqn:Hi.
  - exists s. split; [by apply stepBackward_at_start|reflexivity].
  - destruct (lookup_lt_is_Some_2 (moves s) j ltac:(lia)) as [m Hm].
    destruct (Forall_lookup_1 _ _ _ _ Hrange Hm) as [Hf Ht].
    destruct (lookup_lt_is_Some_2 _ _ Ht) as [rod Hrod].
    destruct (last rod) as [d|] eqn:Hlast.
    + destruct (transfer_total _ _ _ _ _ Hrod Hlast Hf) as [rs' Htr].
      eexists. split; [exact (stepBackward_transfer _ _ _ _ Hi Hm Htr)|].
      cbn [rods withIndex withRods]. by eapply transfer_perm.
    + apply last_None in Hlast as ->.
      unfold stepBackward. rewrite Hi.
      cbn [Nat.ltb Nat.leb pred currentMoveIndex withIndex moves rods].
      rewrite Hm, Hrod. cbn [pop last removelast].
      eexists. split; [reflexivity|].
      cbn [rods withRods]. by rewrite (list_insert_id _ _ _ Hrod).
Qed.

(** Whenever the handlers return, in any state at all, the disks are the
    same. *)
Lemma executeMove_Ok_perm (s s' : State) :
  executeMove s = Ok s' -> concat (rods s') ≡ₚ concat (rods s).
Proof.
  unfold executeMove. intros H.
  destruct (length (moves s) <=? currentMoveIndex s)%nat.
  { cbn [intervalId withPlaying] in H.
    destruct (truthyId (intervalId s)); by injection H as <-. }
  destruct (moves s !! currentMoveIndex s) as [m|]; [|discriminate].
  destruct (rods s !! from m) as [rod|] eqn:Hrod; [|discriminate].
  unfold pop in H. destruct (last rod) as [d|] eqn:Hlast.
  - cbn [rods withRods] in H.
    destruct (<[from m := removelast rod]> (rods s) !! to m) as [dest|] eqn:Hdest;
      [|discriminate].
    injection H as <-. cbn [rods withIndex withRods].
    apply (transfer_perm (from m) (to m)).
    unfold transfer. by rewrite Hrod, Hlast, Hdest.
  - injection H as <-. cbn [rods withIndex withRods].
    apply last_None in Hlast as ->. cbn [removelast].
    by rewrite (list_insert_id _ _ _ Hrod).
Qed.

Lemma stepBackward_Ok_perm (s s' : State) :
  stepBackward s = Ok s' -> concat (rods s') ≡ₚ concat (rods s).
Proof.
  unfold stepBackward. intros H.
  destruct (0 <? currentMoveIndex s)%nat; [|by injection H as <-].
  cbn [currentMoveIndex withIndex moves rods] in H.
  destruct (moves s !! pred (currentMoveIndex s)) as [m|]; [|discriminate].
  destruct (rods s !! to m) as [rod|] eqn:Hrod; [|discriminate].
  unfold pop in H. destruct (last rod) as [d|] eqn:Hlast.
  - cbn [rods withRods] in H.
    destruct (<[to m := removelast rod]> (rods s) !! from m) as [dest|] eqn:Hdest;
      [|discriminate].
    injection H as <-. cbn [rods withIndex withRods].
    apply (transfer_perm (to m) (from m)).
    unfold transfer. by rewrite Hrod, Hlast, Hdest.
  - injection H as <-. cbn [rods withIndex withRods].
    apply last_None in Hlast as ->. cbn [removelast].
    by rewrite (list_insert_id _ _ _ Hrod).
Qed.

(** C10. For every state, [executeMove], [stepForward] and [stepBackward]
    each keep the multiset of the disks held by the rods whenever they
    return: none is made, duplicated or lost; and they do return in every
    session state of the data model (moves between existing rods, index
    within the plan).  So every state reached after [initializeGame(n)]
    holds the n disks of the start, n in all.  In particular [executeMove]
    on an empty source rod leaves every rod as it was and still increments
    [currentMoveIndex]. *)
Theorem disks_conserved (n : Z) (s : State) (m : Move) :
  (forall s', executeMove s = Ok s' -> concat (rods s') ≡ₚ concat (rods s))
  /\ (forall s', stepForward s = Ok s' -> concat (rods s') ≡ₚ concat (rods s))
  /\ (forall s', stepBackward s = Ok s' -> concat (rods s') ≡ₚ concat (rods s))
  /\ (wellFormed s ->
      (exists s', executeMove s = Ok s')
      /\ (exists s', stepForward s = Ok s')
      /\ (exists s', stepBackward s = Ok s'))
  /\ (reachable n s ->
      concat (rods s) ≡ₚ initialRod n /\ Z.of_nat (length (concat (rods s))) = n)
  /\ (moves s !! currentMoveIndex s = Some m ->
      rods s !! from m = Some [] ->
      exists s',
        executeMove s = Ok s'
        /\ rods s' = rods s
        /\ currentMoveIndex s' = S (currentMoveIndex s)).
Proof.
  repeat apply conj.
  - apply executeMove_Ok_perm.
  - intros s'. unfold stepForward.
    destruct (currentMoveIndex s <? length (moves s))%nat.
    + apply executeMove_Ok_perm.
    + by intros [= <-].
  - apply stepBackward_Ok_perm.
  - intros [Hrange Hle].
    destruct (executeMove_conserves s Hrange) as (s1 & H1 & _).
    destruct (stepBackward_conserves s (conj Hrange Hle)) as (s2 & H2 & _).
    split; [by exists s1|]. split; [|by exists s2].
    unfold stepForward. destruct (currentMoveIndex s <? length (moves s))%nat; by eexists.
  - intros Hplan%reachable_onPlan.
    pose proof (onPlan_disks _ _ Hplan) as Hperm. split; [exact Hperm|].
    rewrite Hperm, length_initialRod. destruct Hplan as (Hn & _). lia.
  - intros Hm Hsrc. eexists. split; [exact (executeMove_empty_source _ _ Hm Hsrc)|].
    split; reflexivity.
Qed.

Lemma game3_step1_wellFormed : wellFormed game3_step1.
Proof.
  split; [|vm_compute; lia].
  unfold movesInRange. vm_compute. repeat constructor.
Defined.

Lemma disks_conserved_witness :
  (forall s', stepForward game3_step1 = Ok s' ->
              concat (rods s') ≡ₚ concat (rods game3_step1))
  /\ ((exists s', executeMove game3_step1 = Ok s')
      /\ (exists s', stepForward game3_step1 = Ok s')
      /\ (exists s', stepBackward game3_step1 = Ok s'))
  /\ (concat (rods game3_step1) ≡ₚ initialRod 3
      /\ Z.of_nat (length (concat (rods game3_step1))) = 3)
  /\ (exists s',
        executeMove emptySource = Ok s'
        /\ rods s' = rods emptySource
        /\ currentMoveIndex s' = S (currentMoveIndex emptySource)).
Proof.
  destruct (disks_conserved 3 game3_step1 (mkMove 0 2)) as (_ & Hf & _ & Hw & Hr & _).
  destruct (disks_conserved 3 emptySource (mkMove 0 2)) as (_ & _ & _ & _ & _ & Hempty).
  split; [exact Hf|].
  split; [exact (Hw game3_step1_wellFormed)|].
  split; [exact (Hr game3_step1_reachable)|].
  apply Hempty; reflexivity.
Defined.

(** ** The playback half and the game half *)

Lemma stopAnimation_sameGame (s : State) :
  sameGame s (stopAnimation s)
  /\ disks (stopAnimation s) = disks s
  /\ startTime (stopAnimation s) = startTime s
  /\ speed (stopAnimation s) = speed s
  /\ nextInterval (stopAnimation s) = nextInterval s.
Proof.
  unfold stopAnimation, sameGame. cbn [intervalId withPlaying].
  destruct (truthyId (intervalId s)); repeat split.
Qed.

Lemma startAnimation_sameGame (now : Z) (s : State) :
  sameGame s (startAnimation now s)
  /\ disks (startAnimation now s) = disks s
  /\ speed (startAnimation now s) = speed s.
Proof.
  unfold startAnimation, sameGame.
  destruct ((0 <? length (moves s))%nat && (currentMoveIndex s <? length (moves s))%nat
            && negb (isPlaying s)); [|repeat split].
  cbn [startTime withPlaying]. destruct (truthyTime (startTime s)); repeat split.
Qed.

Lemma sameGame_trans (s1 s2 s3 : State) :
  sameGame s1 s2 -> sameGame s2 s3 -> sameGame s1 s3.
Proof.
  intros (H1 & H2 & H3 & H4) (H1' & H2' & H3' & H4').
  repeat split; congruence.
Qed.

Lemma updateSpeed_sameGame (now v : Z) (s : State) :
  sameGame s (updateSpeed now v s)
  /\ disks (updateSpeed now v s) = disks s
  /\ speed (updateSpeed now v s) = v.
Proof.
  unfold updateSpeed. cbn [isPlaying withSpeed].
  destruct (isPlaying s); [|repeat split].
  destruct (stopAnimation_sameGame (withSpeed v s)) as (Hg & Hd & _ & Hs & _).
  destruct (startAnimation_sameGame now (stopAnimation (withSpeed v s))) as (Hg' & Hd' & Hs').
  cbn [disks speed withSpeed] in Hd, Hs.
  split; [|split; congruence].
  eapply sameGame_trans; [|exact Hg'].
  eapply sameGame_trans; [|exact Hg]. repeat split.
Qed.

Lemma onPlan_sameGame (n : Z) (s s' : State) :
  sameGame s s' -> onPlan n s -> onPlan n s'.
Proof.
  intros (Hr & Hm & Hi & _) H. unfold onPlan in *. by rewrite Hr, Hm, Hi.
Qed.

Lemma gameSound_sameGame (s s' : State) :
  sameGame s s' -> 3 <= disks s' <= 10 -> gameSound s -> gameSound s'.
Proof.
  intros Hg Hd (_ & k & Hk & Hm & Ht & Hplan).
  pose proof Hg as (Hr' & Hm' & Hi' & Ht').
  split; [exact Hd|]. exists k.
  split; [lia|]. split; [congruence|]. split; [congruence|].
  exact (onPlan_sameGame _ s s' Hg Hplan).
Qed.

Lemma timerSound_samePlayback (s s' : State) :
  samePlayback s s' -> timerSound s -> timerSound s'.
Proof.
  intros (Hp & Hs & Hi & Hl & Hn) H. unfold timerSound in *.
  by rewrite Hp, Hs, Hi, Hl, Hn.
Qed.

Lemma executeMove_at_end (s : State) :
  (length (moves s) <= currentMoveIndex s)%nat -> executeMove s = Ok (stopAnimation s).
Proof.
  intros H. unfold executeMove, stopAnimation.
  replace (length (moves s) <=? currentMoveIndex s)%nat with true
    by (symmetry; apply Nat.leb_le; exact H).
  cbn [intervalId withPlaying]. by destruct (truthyId (intervalId s)).
Qed.

(** A move that is made touches the rods and the index, nothing else. *)
Lemma executeMove_made (s s' : State) :
  (currentMoveIndex s < length (moves s))%nat ->
  executeMove s = Ok s' ->
  s' = withIndex (S (currentMoveIndex s)) (withRods (rods s') s).
Proof.
  intros Hlt. unfold executeMove.
  replace (length (moves s) <=? currentMoveIndex s)%nat with false
    by (symmetry; apply Nat.leb_gt; exact Hlt).
  destruct (moves s !! currentMoveIndex s) as [m|]; [|discriminate].
  destruct (rods s !! from m) as [rod|]; [|discriminate].
  unfold pop. destruct (last rod) as [d|].
  - cbn [rods withRods].
    destruct (<[from m := removelast rod]> (rods s) !! to m); [|discriminate].
    by intros [= <-].
  - by intros [= <-].
Qed.

Lemma stepBackward_made (s s' : State) :
  stepBackward s = Ok s' ->
  s' = withRods (rods s') (withIndex (pred (currentMoveIndex s)) s).
Proof.
  unfold stepBackward.
  destruct (currentMoveIndex s) as [|j] eqn:Hi.
  { cbn. intros [= <-]. destruct s; cbn in *. by subst. }
  cbn [Nat.ltb Nat.leb pred currentMoveIndex withIndex moves rods].
  destruct (moves s !! j) as [m|]; [|discriminate].
  destruct (rods s !! to m) as [rod|]; [|discriminate].
  unfold pop. destruct (last rod) as [d|].
  - cbn [rods withRods].
    destruct (<[to m := removelast rod]> (rods s) !! from m); [|discriminate].
    by intros [= <-].
  - by intros [= <-].
Qed.

Lemma filter_out_only (i : nat) (p : Z) :
  filter (fun q : nat * Z => fst q ≠ i) [(i, p)] = [].
Proof. rewrite filter_cons_False; [apply filter_nil|]. cbn. intros H. by apply H. Qed.

Lemma timerSound_stopAnimation (s : State) :
  timerSound s ->
  timerSound (stopAnimation s)
  /\ isPlaying (stopAnimation s) = false
  /\ intervalId (stopAnimation s) = None
  /\ liveIntervals (stopAnimation s) = [].
Proof.
  intros [Hn H]. unfold stopAnimation, timerSound. cbn [intervalId withPlaying].
  destruct (isPlaying s).
  - destruct H as (i & Hi & Hr & Hl). rewrite Hi.
    destruct i as [|i]; [lia|]. cbn [truthyId].
    unfold clearInterval.
    cbn [isPlaying intervalId liveIntervals nextInterval withIntervalId withIntervals withPlaying].
    rewrite Hl, filter_out_only. by repeat split.
  - destruct H as [Hi Hl]. rewrite Hi. cbn [truthyId].
    cbn [isPlaying intervalId liveIntervals nextInterval withPlaying].
    by repeat split.
Qed.

Lemma startAnimation_starts (now : Z) (s : State) :
  isPlaying s = false ->
  (currentMoveIndex s < length (moves s))%nat ->
  startAnimation now s
  = withIntervalId (Some (nextInterval s))
      (withIntervals (liveIntervals s ++ [(nextInterval s, speed s)]) (S (nextInterval s))
         (withStartTime (if truthyTime (startTime s) then startTime s else Some now)
            (withPlaying true s))).
Proof.
  intros Hp Hlt. unfold startAnimation.
  replace (0 <? length (moves s))%nat with true by (symmetry; apply Nat.ltb_lt; lia).
  replace (currentMoveIndex s <? length (moves s))%nat with true
    by (symmetry; apply Nat.ltb_lt; lia).
  rewrite Hp. cbn [andb negb startTime withPlaying].
  destruct (truthyTime (startTime s)); [|reflexivity].
  by destruct s.
Qed.

Lemma startAnimation_refused (now : Z) (s : State) :
  isPlaying s = true \/ (length (moves s) <= currentMoveIndex s)%nat ->
  startAnimation now s = s.
Proof.
  intros H. unfold startAnimation.
  destruct H as [->|H]; [by rewrite andb_false_r|].
  replace (currentMoveIndex s <? length (moves s))%nat with false
    by (symmetry; apply Nat.ltb_ge; exact H).
  by rewrite andb_false_r.
Qed.

Lemma timerSound_startAnimation (now : Z) (s : State) :
  timerSound s -> timerSound (startAnimation now s).
Proof.
  intros Hs.
  destruct (isPlaying s) eqn:Hp; [by rewrite startAnimation_refused by (by left)|].
  destruct (decide (currentMoveIndex s < length (moves s))%nat) as [Hlt|Hge];
    [|by rewrite startAnimation_refused by (right; lia)].
  rewrite (startAnimation_starts now s Hp Hlt).
  destruct Hs as [Hn H]. rewrite Hp in H. destruct H as [Hi Hl].
  unfold timerSound.
  cbn [isPlaying intervalId liveIntervals nextInterval speed
       withIntervalId withIntervals withStartTime withPlaying].
  split; [lia|]. exists (nextInterval s). rewrite Hl. repeat split; lia.
Qed.

(** ** What every handler keeps *)

Lemma initializeGame_samePlayback (depth : nat) (n : Z) (s s' : State) :
  initializeGame depth n s = Ok s' ->
  samePlayback s s' /\ startTime s' = startTime s /\ disks s' = n.
Proof.
  intros (k & _ & _ & ->)%initializeGame_Ok. repeat split.
Qed.

Lemma gameSound_initializeGame (depth : nat) (n : Z) (s0 s : State) :
  3 <= n <= 10 -> initializeGame depth n s0 = Ok s -> gameSound s.
Proof.
  intros Hn H. pose proof (onPlan_init _ _ _ _ H) as Hplan.
  apply initializeGame_Ok in H as (k & -> & _ & ->).
  split; [exact Hn|]. exists k.
  split; [exact Hn|]. split; [reflexivity|]. split; [reflexivity|]. exact Hplan.
Qed.

Lemma stopAnimation_withSpeed (v : Z) (s : State) :
  stopAnimation (withSpeed v s) = withSpeed v (stopAnimation s).
Proof.
  unfold stopAnimation. cbn [intervalId withPlaying withSpeed].
  by destruct (truthyId (intervalId s)).
Qed.

Lemma timerSound_withSpeed (v : Z) (s : State) :
  isPlaying s = false -> timerSound s -> timerSound (withSpeed v s).
Proof.
  intros Hp [Hn H]. unfold timerSound in *.
  cbn [isPlaying intervalId liveIntervals nextInterval withSpeed].
  by rewrite Hp in *.
Qed.

Lemma timerSound_updateSpeed (now v : Z) (s : State) :
  timerSound s -> timerSound (updateSpeed now v s).
Proof.
  intros H. unfold updateSpeed. cbn [isPlaying withSpeed].
  destruct (isPlaying s) eqn:Hp.
  - rewrite stopAnimation_withSpeed.
    destruct (timerSound_stopAnimation s H) as (Hs & Hp' & _).
    by apply timerSound_startAnimation, timerSound_withSpeed.
  - by apply timerSound_withSpeed.
Qed.

Lemma timerSound_executeMove (s s' : State) :
  timerSound s -> executeMove s = Ok s' -> timerSound s'.
Proof.
  intros H He.
  destruct (decide (currentMoveIndex s < length (moves s))%nat) as [Hlt|Hge].
  - rewrite (executeMove_made s s' Hlt He).
    eapply timerSound_samePlayback; [|exact H]. repeat split.
  - rewrite executeMove_at_end in He by lia. injection He as <-.
    by apply timerSound_stopAnimation.
Qed.

Lemma gameSound_executeMove (s s' : State) :
  gameSound s -> executeMove s = Ok s' -> gameSound s'.
Proof.
  intros H He.
  destruct (decide (currentMoveIndex s < length (moves s))%nat) as [Hlt|Hge].
  - destruct H as (Hd & k & Hk & Hm & Ht & Hplan).
    pose proof (executeMove_made s s' Hlt He) as E.
    assert (Hplan' : onPlan (Z.of_nat (S k)) s').
    { eapply onPlan_forward; [exact Hplan|]. by rewrite stepForward_executeMove. }
    rewrite E in Hplan' |- *.
    split; [exact Hd|]. exists k.
    split; [exact Hk|]. split; [exact Hm|]. split; [exact Ht|]. exact Hplan'.
  - rewrite executeMove_at_end in He by lia. injection He as <-.
    destruct (stopAnimation_sameGame s) as (Hg & Hd & _).
    eapply gameSound_sameGame; [exact Hg| |exact H].
    rewrite Hd. by destruct H.
Qed.

Lemma gameSound_stepBackward (s s' : State) :
  gameSound s -> stepBackward s = Ok s' -> gameSound s'.
Proof.
  intros (Hd & k & Hk & Hm & Ht & Hplan) He.
  pose proof (stepBackward_made s s' He) as E.
  pose proof (onPlan_backward _ _ _ Hplan He) as Hplan'.
  rewrite E in Hplan' |- *.
  split; [exact Hd|]. exists k.
  split; [exact Hk|]. split; [exact Hm|]. split; [exact Ht|]. exact Hplan'.
Qed.

Lemma fire_Ok (i : nat) (s s' : State) :
  fire i s = Ok s' ->
  s' = s
  \/ exists s1, executeMove s = Ok s1 /\ (s' = s1 \/ s' = stopAnimation s1).
Proof.
  unfold fire, intervalCallback. destruct (isLive i s); [|intros [= <-]; by left].
  destruct (executeMove s) as [s1|e s1]; [|discriminate]. cbn [andThen].
  destruct (length (moves s1) <=? currentMoveIndex s1)%nat; intros [= <-];
    right; exists s1; auto.
Qed.

Lemma session_sound (depth : nat) (s : State) :
  session depth s -> timerSound s /\ gameSound s.
Proof.
  induction 1 as [s Hm|s e s' _ [Ht Hg] He Hh].
  - unfold onMount in Hm. split.
    + destruct (initializeGame_samePlayback _ _ _ _ Hm) as (Hp & _).
      eapply timerSound_samePlayback; [exact Hp|].
      split; [cbn; lia|]. by split.
    + eapply gameSound_initializeGame; [|exact Hm]. cbn. lia.
  - destruct e as [n| |now ms|now| | | |i]; cbn [handle fromPage] in *.
    + injection Hh as <-. split.
      * eapply timerSound_samePlayback; [|exact Ht]. repeat split.
      * eapply gameSound_sameGame; [|exact He|exact Hg]. repeat split.
    + destruct (initializeGame_samePlayback _ _ _ _ Hh) as (Hp & _). split.
      * by eapply timerSound_samePlayback.
      * eapply gameSound_initializeGame; [|exact Hh]. by destruct Hg.
    + injection Hh as <-. split; [by apply timerSound_updateSpeed|].
      destruct (updateSpeed_sameGame now ms s) as (Hsg & Hd & _).
      eapply gameSound_sameGame; [exact Hsg| |exact Hg]. rewrite Hd. by destruct Hg.
    + injection Hh as <-. destruct (isPlaying s).
      * split; [by apply timerSound_stopAnimation|].
        destruct (stopAnimation_sameGame s) as (Hsg & Hd & _).
        eapply gameSound_sameGame; [exact Hsg| |exact Hg]. rewrite Hd. by destruct Hg.
      * split; [by apply timerSound_startAnimation|].
        destruct (startAnimation_sameGame now s) as (Hsg & Hd & _).
        eapply gameSound_sameGame; [exact Hsg| |exact Hg]. rewrite Hd. by destruct Hg.
    + split; [|by eapply gameSound_stepBackward].
      rewrite (stepBackward_made s s' Hh).
      eapply timerSound_samePlayback; [|exact Ht]. repeat split.
    + unfold stepForward in Hh.
      destruct (currentMoveIndex s <? length (moves s))%nat.
      * split; [by eapply timerSound_executeMove|by eapply gameSound_executeMove].
      * by injection Hh as <-.
    + unfold resetGame in Hh.
      destruct (initializeGame_samePlayback _ _ _ _ Hh) as (Hp & _).
      destruct (stopAnimation_sameGame s) as (_ & Hd & _).
      split.
      * eapply timerSound_samePlayback; [exact Hp|].
        eapply (timerSound_samePlayback (stopAnimation s)); [repeat split|].
        by apply timerSound_stopAnimation.
      * eapply gameSound_initializeGame; [|exact Hh].
        cbn [disks withStartTime]. rewrite Hd. by destruct Hg.
    + destruct (fire_Ok _ _ _ Hh) as [->|(s1 & H1 & [->| ->])]; [by split| |].
      * split; [by eapply timerSound_executeMove|by eapply gameSound_executeMove].
      * pose proof (timerSound_executeMove _ _ Ht H1) as Ht1.
        pose proof (gameSound_executeMove _ _ Hg H1) as Hg1.
        split; [by apply timerSound_stopAnimation|].
        destruct (stopAnimation_sameGame s1) as (Hsg & Hd & _).
        eapply gameSound_sameGame; [exact Hsg| |exact Hg1]. rewrite Hd. by destruct Hg1.
Qed.

(** ** Sessions *)

Lemma game3_session : session 10 game3.
Proof. apply session_mount. vm_compute. reflexivity. Defined.

Lemma playing3_session : session 10 playing3.
Proof.
  apply (session_event 10 game3 (ClickPlayPause 5000) playing3);
    [exact game3_session|exact I|vm_compute; reflexivity].
Defined.

Lemma session_repeatedly_stepForward (depth : nat) (k : nat) :
  forall s s', session depth s -> repeatedly stepForward k s = Ok s' -> session depth s'.
Proof.
  induction k as [|k IH]; intros s s' Hs H.
  - cbn in H. by injection H as <-.
  - cbn [repeatedly] in H.
    destruct (stepForward s) as [s1|e s1] eqn:E; [|discriminate].
    cbn [andThen] in H. apply (IH s1 s'); [|exact H].
    by apply (session_event depth s ClickStepForward s1).
Defined.

Lemma playing3_at_end_session : session 10 playing3_at_end.
Proof.
  apply (session_repeatedly_stepForward 10 7 playing3);
    [exact playing3_session|vm_compute; reflexivity].
Defined.

(** X1. Whatever the page has delivered since the mount, playing means
    exactly one live interval, the one [intervalId] holds, ticking at the
    current [speed]; not playing means [intervalId] is null and no interval
    is live. *)
Theorem session_one_interval (depth : nat) (s : State) :
  session depth s ->
  (isPlaying s = true ->
   exists i, intervalId s = Some i /\ i <> O /\ liveIntervals s = [(i, speed s)])
  /\ (isPlaying s = false -> intervalId s = None /\ liveIntervals s = []).
Proof.
  intros [[Hn H] _]%session_sound. split; intros Hp; rewrite Hp in H.
  - destruct H as (i & Hi & Hr & Hl). exists i. repeat split; [exact Hi|lia|exact Hl].
  - exact H.
Qed.

Lemma session_one_interval_witness :
  (isPlaying playing3 = true ->
   exists i, intervalId playing3 = Some i /\ i <> O
             /\ liveIntervals playing3 = [(i, speed playing3)])
  /\ (isPlaying playing3 = false ->
      intervalId playing3 = None /\ liveIntervals playing3 = []).
Proof. apply (session_one_interval 10 playing3). exact playing3_session. Defined.

Lemma executeMoves_prefix (j : nat) :
  forall (t : State) (r1 : list (list DiskType)),
    (currentMoveIndex t + j <= length (moves t))%nat ->
    legalRun (rods t) (take j (drop (currentMoveIndex t) (moves t))) r1 ->
    executeMoves j t = Ok (withIndex (currentMoveIndex t + j) (withRods r1 t)).
Proof.
  induction j as [|j IH]; intros t r1 Hle Hrun.
  - rewrite take_0 in Hrun. inversion Hrun; subst.
    rewrite Nat.add_0_r. by destruct t.
  - destruct (lookup_lt_is_Some_2 (moves t) (currentMoveIndex t) ltac:(lia)) as [m Hm].
    rewrite (drop_S _ _ _ Hm) in Hrun. cbn [take firstn] in Hrun.
    inversion Hrun as [|? ? ? rs1 ? _ Ht Hrest]; subst.
    cbn [executeMoves]. rewrite (executeMove_transfer _ _ _ Hm Ht). cbn [andThen].
    rewrite (IH (withIndex (S (currentMoveIndex t)) (withRods rs1 t)) r1).
    + cbn [currentMoveIndex moves withIndex withRods].
      by replace (S (currentMoveIndex t) + j)%nat with (currentMoveIndex t + S j)%nat by lia.
    + cbn [currentMoveIndex moves withIndex withRods]. lia.
    + exact Hrest.
Qed.

(** X2. Whatever the page has delivered since the mount, the game shown is
    the plan of some disk count n of the slider, followed up to
    [currentMoveIndex]: [moves] is [calculateMoves(n, 0, 2, 1)],
    [totalMoves] is its length 2^n - 1, [currentMoveIndex] does not pass
    it, there are three rods, each ordered, and together they hold the n
    disks of the start.  The rods are where the moves made so far have
    put them: [executeMove] called [currentMoveIndex] times on the
    starting position, every other variable as it is, gives the state
    itself; those moves are a legal run from the start to the rods, and
    the moves that remain are a legal run from the rods to the solved
    position. *)
Theorem session_game_consistent (depth : nat) (s : State) :
  session depth s ->
  exists n,
    3 <= n <= 10
    /\ calculateMoves (Z.to_nat n) n 0 2 1 = Some (moves s)
    /\ totalMoves s = length (moves s)
    /\ Z.of_nat (totalMoves s) = 2 ^ n - 1
    /\ (currentMoveIndex s <= totalMoves s)%nat
    /\ length (rods s) = 3%nat
    /\ Forall rodOrdered (rods s)
    /\ concat (rods s) ≡ₚ initialRod n
    /\ 3 <= disks s <= 10
    /\ executeMoves (currentMoveIndex s)
         (withIndex 0 (withRods [initialRod n; []; []] s)) = Ok s
    /\ legalRun [initialRod n; []; []] (take (currentMoveIndex s) (moves s)) (rods s)
    /\ legalRun (rods s) (drop (currentMoveIndex s) (moves s)) [[]; []; initialRod n].
Proof.
  intros [_ (Hd & k & Hk & Hm & Ht & Hplan)]%session_sound.
  exists (Z.of_nat (S k)).
  pose proof (onPlan_disks _ _ Hplan) as Hperm.
  destruct Hplan as (_ & Hle & Hpre & Hsuf).
  split; [exact Hk|]. split; [rewrite Hm; apply calculateMoves_hanoi; lia|].
  split; [exact Ht|]. split; [rewrite Ht, Hm; apply length_hanoi|].
  split; [by rewrite Ht|].
  split; [exact (legalRun_length _ _ _ Hpre)|].
  split; [by eapply legalRun_end|]. split; [exact Hperm|]. split; [exact Hd|].
  split; [|by split].
  rewrite (executeMoves_prefix (currentMoveIndex s)
             (withIndex 0 (withRods [initialRod (Z.of_nat (S k)); []; []] s)) (rods s)).
  - by destruct s.
  - cbn [currentMoveIndex moves withIndex withRods]. lia.
  - cbn [currentMoveIndex moves rods withIndex withRods]. by rewrite drop_0.
Qed.

Lemma session_game_consistent_witness :
  exists n,
    3 <= n <= 10
    /\ calculateMoves (Z.to_nat n) n 0 2 1 = Some (moves playing3_at_end)
    /\ totalMoves playing3_at_end = length (moves playing3_at_end)
    /\ Z.of_nat (totalMoves playing3_at_end) = 2 ^ n - 1
    /\ (currentMoveIndex playing3_at_end <= totalMoves playing3_at_end)%nat
    /\ length (rods playing3_at_end) = 3%nat
    /\ Forall rodOrdered (rods playing3_at_end)
    /\ concat (rods playing3_at_end) ≡ₚ initialRod n
    /\ 3 <= disks playing3_at_end <= 10
    /\ executeMoves (currentMoveIndex playing3_at_end)
         (withIndex 0 (withRods [initialRod n; []; []] playing3_at_end)) = Ok playing3_at_end
    /\ legalRun [initialRod n; []; []]
         (take (currentMoveIndex playing3_at_end) (moves playing3_at_end))
         (rods playing3_at_end)
    /\ legalRun (rods playing3_at_end)
         (drop (currentMoveIndex playing3_at_end) (moves playing3_at_end))
         [[]; []; initialRod n].
Proof. apply (session_game_consistent 10 playing3_at_end). exact playing3_at_end_session. Defined.

(** X3. With a call stack of ten frames for the planner the mount succeeds,
    and in a mounted component no handler ever throws, whatever the page
    delivers and in whatever order: slider, speed menu, the four buttons,
    interval ticks. *)
Theorem session_never_throws (depth : nat) :
  (10 <= depth)%nat ->
  (exists s, onMount depth initialState = Ok s)
  /\ forall (s : State) (e : Event),
       session depth s -> fromPage e -> exists s', handle depth e s = Ok s'.
Proof.
  intros Hdepth. split.
  { eexists. unfold onMount. change (disks initialState) with (Z.of_nat (S 2)).
    apply initializeGame_total. lia. }
  intros s e [Ht (Hd & k & Hk & Hm & Htot & Hplan)]%session_sound He.
  assert (Hinit : forall s0, exists s', initializeGame depth (disks s) s0 = Ok s').
  { intros s0. replace (disks s) with (Z.of_nat (S (Z.to_nat (disks s - 1)))) by lia.
    eexists. apply initializeGame_total. lia. }
  assert (Hexec : exists s', executeMove s = Ok s').
  { destruct (decide (currentMoveIndex s < length (moves s))%nat) as [Hlt|Hge].
    - destruct (onPlan_steps_return _ _ Hplan) as [[s' Hf] _].
      exists s'. by rewrite <- stepForward_executeMove.
    - eexists. apply executeMove_at_end. lia. }
  destruct e as [n| |now ms|now| | | |i]; cbn [handle].
  - by eexists.
  - apply Hinit.
  - by eexists.
  - by eexists.
  - exact (proj2 (onPlan_steps_return _ _ Hplan)).
  - exact (proj1 (onPlan_steps_return _ _ Hplan)).
  - unfold resetGame.
    destruct (stopAnimation_sameGame s) as (_ & Hds & _).
    cbn [disks withStartTime]. rewrite Hds. apply Hinit.
  - unfold fire, intervalCallback. destruct (isLive i s); [|by eexists].
    destruct Hexec as [s1 ->]. cbn [andThen].
    destruct (length (moves s1) <=? currentMoveIndex s1)%nat; by eexists.
Qed.

Lemma session_never_throws_witness :
  (exists s, onMount 10 initialState = Ok s)
  /\ forall (s : State) (e : Event),
       session 10 s -> fromPage e -> exists s', handle 10 e s = Ok s'.
Proof. apply (session_never_throws 10). lia. Defined.

(** ** Playing to the end *)

Lemma isLive_only (i : nat) (p : Z) (s : State) :
  liveIntervals s = [(i, p)] -> isLive i s = true.
Proof.
  intros H. unfold isLive. rewrite H. apply bool_decide_eq_true_2.
  cbn. apply list_elem_of_here.
Qed.

Lemma isLive_none (i : nat) (s : State) : liveIntervals s = [] -> isLive i s = false.
Proof.
  intros H. unfold isLive. rewrite H. apply bool_decide_eq_false_2.
  cbn. apply not_elem_of_nil.
Qed.

Lemma autoplay_run (i : nat) (p : Z) (k : nat) :
  forall (t : State) (rf : list (list DiskType)),
    liveIntervals t = [(i, p)] ->
    (currentMoveIndex t + S k = length (moves t))%nat ->
    legalRun (rods t) (drop (currentMoveIndex t) (moves t)) rf ->
    repeatedly (fire i) (S k) t
    = Ok (stopAnimation (withIndex (length (moves t)) (withRods rf t))).
Proof.
  induction k as [|k IH]; intros t rf Hlive Hlen Hrun.
  - destruct (lookup_lt_is_Some_2 (moves t) (currentMoveIndex t) ltac:(lia)) as [m Hm].
    rewrite (drop_S _ _ _ Hm) in Hrun.
    inversion Hrun as [|? ? ? rs1 ? _ Ht Hrest]; subst.
    rewrite drop_ge in Hrest by lia. inversion Hrest; subst.
    cbn [repeatedly]. unfold fire. rewrite (isLive_only i p t Hlive).
    unfold intervalCallback. rewrite (executeMove_transfer _ _ _ Hm Ht).
    cbn [andThen moves currentMoveIndex withIndex withRods].
    replace (length (moves t) <=? S (currentMoveIndex t))%nat with true
      by (symmetry; apply Nat.leb_le; lia).
    cbn [andThen]. by replace (length (moves t)) with (S (currentMoveIndex t)) by lia.
  - destruct (lookup_lt_is_Some_2 (moves t) (currentMoveIndex t) ltac:(lia)) as [m Hm].
    rewrite (drop_S _ _ _ Hm) in Hrun.
    inversion Hrun as [|? ? ? rs1 ? _ Ht Hrest]; subst.
    change (repeatedly (fire i) (S (S k)) t)
      with (andThen (fire i t) (repeatedly (fire i) (S k))).
    unfold fire at 1. rewrite (isLive_only i p t Hlive).
    unfold intervalCallback. rewrite (executeMove_transfer _ _ _ Hm Ht).
    cbn [andThen moves currentMoveIndex withIndex withRods].
    replace (length (moves t) <=? S (currentMoveIndex t))%nat with false
      by (symmetry; apply Nat.leb_gt; lia).
    cbn [andThen].
    rewrite (IH (withIndex (S (currentMoveIndex t)) (withRods rs1 t)) rf).
    + reflexivity.
    + exact Hlive.
    + cbn [moves currentMoveIndex withIndex withRods]. lia.
    + exact Hrest.
Qed.

(** X4. Play pressed in a mounted component that is paused before the end
    of its plan: after as many ticks of the new interval as there are
    moves left, the puzzle is solved (rods 0 and 1 empty, the whole tower
    of n disks on rod 2, [currentMoveIndex] at [moves.length]) and the
    playback has stopped itself: [isPlaying] is false, [intervalId] is
    null and no interval is live. *)
Theorem autoplay_completes (depth : nat) (now : Z) (s : State) :
  session depth s ->
  isPlaying s = false ->
  (currentMoveIndex s < length (moves s))%nat ->
  exists sf n,
    repeatedly (fire (nextInterval s)) (length (moves s) - currentMoveIndex s)
      (startAnimation now s) = Ok sf
    /\ 3 <= n <= 10
    /\ calculateMoves (Z.to_nat n) n 0 2 1 = Some (moves sf)
    /\ currentMoveIndex sf = length (moves sf)
    /\ rods sf = [[]; []; initialRod n]
    /\ isPlaying sf = false
    /\ intervalId sf = None
    /\ liveIntervals sf = [].
Proof.
  intros Hs Hp Hlt.
  pose proof (session_sound _ _ Hs) as [Ht (_ & k & Hk & Hm & _ & Hplan)].
  pose proof (timerSound_startAnimation now s Ht) as Ht'.
  destruct Ht as [_ Hlive]. rewrite Hp in Hlive. destruct Hlive as [_ Hlive].
  destruct Hplan as (_ & _ & _ & Hsuf).
  rewrite (startAnimation_starts now s Hp Hlt) in Ht' |- *.
  set (t := withIntervalId _ _) in *.
  replace (length (moves s) - currentMoveIndex s)%nat
    with (S (length (moves s) - currentMoveIndex s - 1)) by lia.
  rewrite (autoplay_run (nextInterval s) (speed s) _ t [[]; []; initialRod (Z.of_nat (S k))]).
  - eexists _, (Z.of_nat (S k)). split; [reflexivity|].
    destruct (timerSound_stopAnimation
                (withIndex (length (moves t)) (withRods [[]; []; initialRod (Z.of_nat (S k))] t)))
      as (_ & Hp' & Hi' & Hl').
    { eapply timerSound_samePlayback; [|exact Ht']. repeat split. }
    destruct (stopAnimation_sameGame
                (withIndex (length (moves t)) (withRods [[]; []; initialRod (Z.of_nat (S k))] t)))
      as ((Hr & Hmv & Hidx & _) & _).
    split; [exact Hk|]. rewrite Hmv, Hidx, Hr.
    split; [|by repeat split].
    cbn [moves withIndex withRods]. subst t.
    cbn [moves withIntervalId withIntervals withStartTime withPlaying].
    rewrite Hm. apply calculateMoves_hanoi. lia.
  - subst t. cbn [liveIntervals withIntervalId withIntervals]. by rewrite Hlive.
  - subst t. cbn [moves currentMoveIndex withIntervalId withIntervals withStartTime withPlaying].
    lia.
  - exact Hsuf.
Qed.

Lemma autoplay_completes_witness :
  exists sf n,
    repeatedly (fire (nextInterval game3_step1))
      (length (moves game3_step1) - currentMoveIndex game3_step1)
      (startAnimation 5000 game3_step1) = Ok sf
    /\ 3 <= n <= 10
    /\ calculateMoves (Z.to_nat n) n 0 2 1 = Some (moves sf)
    /\ currentMoveIndex sf = length (moves sf)
    /\ rods sf = [[]; []; initialRod n]
    /\ isPlaying sf = false
    /\ intervalId sf = None
    /\ liveIntervals sf = [].
Proof.
  apply (autoplay_completes 10 5000 game3_step1).
  - apply (session_event 10 game3 ClickStepForward game3_step1);
      [exact game3_session|exact I|vm_compute; reflexivity].
  - reflexivity.
  - vm_compute. lia.
Defined.

(** X5. Pausing twice is pausing once: [stopAnimation] after
    [stopAnimation] changes nothing, in any state. *)
Theorem stopAnimation_idempotent (s : State) :
  stopAnimation (stopAnimation s) = stopAnimation s.
Proof.
  unfold stopAnimation. cbn [intervalId withPlaying].
  destruct (truthyId (intervalId s)) as [i|] eqn:E.
  - reflexivity.
  - cbn [intervalId withPlaying]. by rewrite E.
Qed.

(** X6. Play cannot start a second interval: [startAnimation] called
    again on what [startAnimation] returned changes nothing, in any state
    and at any clock reading, since the first call either set [isPlaying]
    or found nothing left to play. *)
Theorem startAnimation_once (now later : Z) (s : State) :
  startAnimation later (startAnimation now s) = startAnimation now s.
Proof.
  destruct (isPlaying s) eqn:Hp.
  { rewrite (startAnimation_refused now s) by (by left).
    by apply startAnimation_refused; left. }
  destruct (decide (currentMoveIndex s < length (moves s))%nat) as [Hlt|Hge].
  - apply startAnimation_refused. left. by rewrite (startAnimation_starts now s Hp Hlt).
  - rewrite (startAnimation_refused now s) by (right; lia).
    apply startAnimation_refused. right. lia.
Qed.

(** ** Stepping through by hand *)

Lemma stepsForward_run (j : nat) :
  forall (s : State) (rf : list (list DiskType)),
    (currentMoveIndex s + j <= length (moves s))%nat ->
    legalRun (rods s) (drop (currentMoveIndex s) (moves s)) rf ->
    exists rs,
      repeatedly stepForward j s = Ok (withIndex (currentMoveIndex s + j) (withRods rs s))
      /\ legalRun rs (drop (currentMoveIndex s + j) (moves s)) rf.
Proof.
  induction j as [|j IH]; intros s rf Hle Hrun.
  - exists (rods s). rewrite Nat.add_0_r. split; [|exact Hrun]. by destruct s.
  - destruct (lookup_lt_is_Some_2 (moves s) (currentMoveIndex s) ltac:(lia)) as [m Hm].
    rewrite (drop_S _ _ _ Hm) in Hrun.
    inversion Hrun as [|? ? ? rs1 ? Ho Ht Hrest]; subst.
    cbn [repeatedly]. rewrite stepForward_executeMove by lia.
    rewrite (executeMove_transfer _ _ _ Hm Ht). cbn [andThen].
    destruct (IH (withIndex (S (currentMoveIndex s)) (withRods rs1 s)) rf) as (rs & He & Hr).
    + cbn [currentMoveIndex moves withIndex withRods]. lia.
    + exact Hrest.
    + exists rs. rewrite He. cbn [currentMoveIndex moves withIndex withRods] in *.
      replace (currentMoveIndex s + S j)%nat with (S (currentMoveIndex s) + j)%nat by lia.
      split; [reflexivity|exact Hr].
Qed.

Lemma stepsBackward_run (j : nat) :
  forall (s : State) (r0 : list (list DiskType)),
    (j <= currentMoveIndex s)%nat ->
    (currentMoveIndex s <= length (moves s))%nat ->
    legalRun r0 (take (currentMoveIndex s) (moves s)) (rods s) ->
    exists rs,
      repeatedly stepBackward j s = Ok (withRods rs (withIndex (currentMoveIndex s - j) s))
      /\ legalRun r0 (take (currentMoveIndex s - j) (moves s)) rs.
Proof.
  induction j as [|j IH]; intros s r0 Hj Hle Hrun.
  - exists (rods s). rewrite Nat.sub_0_r. split; [|exact Hrun]. by destruct s.
  - destruct (currentMoveIndex s) as [|i] eqn:Hi; [lia|].
    destruct (lookup_lt_is_Some_2 (moves s) i ltac:(lia)) as [m Hm].
    rewrite (take_S_r _ _ _ Hm) in Hrun.
    apply legalRun_app_inv in Hrun as (r1 & Hpre & Hlast).
    pose proof (legalRun_single_inv _ _ _ Hlast) as Ht.
    cbn [repeatedly].
    rewrite (stepBackward_transfer s i m r1 Hi Hm (transfer_undo _ _ _ _ Ht)).
    cbn [andThen].
    destruct (IH (withRods r1 (withIndex i s)) r0) as (rs & He & Hr).
    + cbn [currentMoveIndex withIndex withRods]. lia.
    + cbn [currentMoveIndex moves withIndex withRods]. lia.
    + exact Hpre.
    + exists rs. rewrite He. cbn [currentMoveIndex moves withIndex withRods] in *.
      replace (S i - S j)%nat with (i - j)%nat by lia.
      split; [reflexivity|exact Hr].
Qed.

Lemma legalRun_nil_inv (rs rs' : list (list DiskType)) : legalRun rs [] rs' -> rs = rs'.
Proof. by inversion 1. Qed.

(** X7. From any state that [initializeGame(n)] returns, [stepForward()]
    called [moves.length] times solves the puzzle (index at
    [moves.length], rods 0 and 1 empty, the tower on rod 2), and
    [stepBackward()] called as many times from there gives back the
    starting state, equal in every variable. *)
Theorem forward_all_backward_all (depth : nat) (n : Z) (s0 s : State) :
  initializeGame depth n s0 = Ok s ->
  exists sf,
    repeatedly stepForward (length (moves s)) s = Ok sf
    /\ currentMoveIndex sf = length (moves s)
    /\ rods sf = [[]; []; initialRod n]
    /\ repeatedly stepBackward (length (moves s)) sf = Ok s.
Proof.
  intros (k & -> & Hk & ->)%initializeGame_Ok.
  set (s := withIndex 0 _).
  pose proof (plan_legal k) as Hrun. cbn zeta in Hrun.
  destruct (stepsForward_run (length (moves s)) s [[]; []; initialRod (Z.of_nat (S k))])
    as (rs & Hf & Hr).
  { cbn [currentMoveIndex s withIndex]. lia. }
  { exact Hrun. }
  change (currentMoveIndex s + length (moves s))%nat with (length (moves s)) in Hf, Hr.
  rewrite drop_all in Hr. apply legalRun_nil_inv in Hr as ->.
  set (sf := withIndex (length (moves s)) _) in Hf.
  exists sf.
  split; [exact Hf|]. split; [reflexivity|]. split; [reflexivity|].
  destruct (stepsBackward_run (length (moves s)) sf [initialRod (Z.of_nat (S k)); []; []])
    as (rs & Hb & Hr0).
  { reflexivity. }
  { reflexivity. }
  { change (currentMoveIndex sf) with (length (moves s)).
    change (moves sf) with (moves s). rewrite firstn_all. exact Hrun. }
  rewrite Hb.
  change (currentMoveIndex sf) with (length (moves s)) in Hr0 |- *.
  rewrite Nat.sub_diag in Hr0 |- *. rewrite take_0 in Hr0.
  apply legalRun_nil_inv in Hr0 as <-. reflexivity.
Qed.

Lemma forward_all_backward_all_witness :
  exists sf,
    repeatedly stepForward (length (moves game3)) game3 = Ok sf
    /\ currentMoveIndex sf = length (moves game3)
    /\ rods sf = [[]; []; initialRod 3]
    /\ repeatedly stepBackward (length (moves game3)) sf = Ok game3.
Proof.
  apply (forward_all_backward_all 3 3 initialState game3). vm_compute. reflexivity.
Defined.

(** X8. In a mounted component with [currentMoveIndex > 0],
    [stepBackward()] and then at once [stepForward()] bring the rods and
    [currentMoveIndex] back to what they were: undoing a move and redoing
    it is the converse of the round trip of C5. *)
Theorem stepBackward_stepForward (depth : nat) (s : State) :
  session depth s ->
  (0 < currentMoveIndex s)%nat ->
  exists s1 s2,
    stepBackward s = Ok s1
    /\ stepForward s1 = Ok s2
    /\ rods s2 = rods s
    /\ currentMoveIndex s2 = currentMoveIndex s.
Proof.
  intros [_ (_ & k & _ & _ & _ & Hplan)]%session_sound Hpos.
  destruct Hplan as (_ & Hle & Hpre & _).
  destruct (currentMoveIndex s) as [|i] eqn:Hi; [lia|].
  destruct (lookup_lt_is_Some_2 (moves s) i ltac:(lia)) as [m Hm].
  rewrite (take_S_r _ _ _ Hm) in Hpre.
  apply legalRun_app_inv in Hpre as (r1 & _ & Hlast).
  pose proof (legalRun_single_inv _ _ _ Hlast) as Ht.
  eexists _, _. split; [|split].
  - exact (stepBackward_transfer s i m r1 Hi Hm (transfer_undo _ _ _ _ Ht)).
  - rewrite stepForward_executeMove
      by (cbn [currentMoveIndex moves withIndex withRods]; lia).
    by apply (executeMove_transfer (withRods r1 (withIndex i s)) m (rods s)).
  - split; reflexivity.
Qed.

Lemma stepBackward_stepForward_witness :
  exists s1 s2,
    stepBackward playing3_at_end = Ok s1
    /\ stepForward s1 = Ok s2
    /\ rods s2 = rods playing3_at_end
    /\ currentMoveIndex s2 = currentMoveIndex playing3_at_end.
Proof.
  apply (stepBackward_stepForward 10 playing3_at_end).
  - exact playing3_at_end_session.
  - vm_compute. lia.
Defined.

(** ** Speed, teardown, reset *)

(** X9. Choosing a speed while a mounted component is playing keeps the
    game where it is (rods, moves, index) and sets [speed].  If moves are
    left, the old interval is replaced by one fresh interval at the new
    period and it goes on playing; if the index is already at the end (the
    user stepped there by hand), playback stops and nothing is restarted.
    A start time already taken is kept. *)
Theorem updateSpeed_restarts (depth : nat) (now v : Z) (s : State) :
  session depth s ->
  isPlaying s = true ->
  speed (updateSpeed now v s) = v
  /\ rods (updateSpeed now v s) = rods s
  /\ moves (updateSpeed now v s) = moves s
  /\ currentMoveIndex (updateSpeed now v s) = currentMoveIndex s
  /\ (truthyTime (startTime s) = true -> startTime (updateSpeed now v s) = startTime s)
  /\ ((currentMoveIndex s < length (moves s))%nat ->
      isPlaying (updateSpeed now v s) = true
      /\ intervalId (updateSpeed now v s) = Some (nextInterval s)
      /\ liveIntervals (updateSpeed now v s) = [(nextInterval s, v)])
  /\ ((length (moves s) <= currentMoveIndex s)%nat ->
      isPlaying (updateSpeed now v s) = false
      /\ intervalId (updateSpeed now v s) = None
      /\ liveIntervals (updateSpeed now v s) = []).
Proof.
  intros [Ht _]%session_sound Hp.
  destruct (updateSpeed_sameGame now v s) as ((Hr & Hm & Hi & _) & _ & Hv).
  split; [exact Hv|]. split; [exact Hr|]. split; [exact Hm|]. split; [exact Hi|].
  clear Hv Hr Hm Hi.
  unfold updateSpeed. cbn [isPlaying withSpeed]. rewrite Hp, stopAnimation_withSpeed.
  destruct (timerSound_stopAnimation s Ht) as (_ & Hp' & Hid & Hlive).
  destruct (stopAnimation_sameGame s) as ((_ & Hm & Hi & _) & _ & Hst & _ & Hnext).
  set (t := withSpeed v (stopAnimation s)).
  assert (Hpt : isPlaying t = false) by exact Hp'.
  assert (Hmt : moves t = moves s) by exact Hm.
  assert (Hit : currentMoveIndex t = currentMoveIndex s) by exact Hi.
  split; [|split].
  - intros Htime.
    destruct (decide (currentMoveIndex s < length (moves s))%nat) as [Hlt|Hge].
    + rewrite (startAnimation_starts now t Hpt) by (rewrite Hmt, Hit; exact Hlt).
      cbn [startTime withIntervalId withIntervals withStartTime].
      change (startTime t) with (startTime (stopAnimation s)). by rewrite Hst, Htime.
    + rewrite (startAnimation_refused now t) by (right; rewrite Hmt, Hit; lia).
      exact Hst.
  - intros Hlt.
    rewrite (startAnimation_starts now t Hpt) by (rewrite Hmt, Hit; exact Hlt).
    cbn [isPlaying intervalId liveIntervals withIntervalId withIntervals withStartTime
         withPlaying].
    change (nextInterval t) with (nextInterval (stopAnimation s)).
    change (liveIntervals t) with (liveIntervals (stopAnimation s)).
    change (speed t) with v.
    by rewrite Hnext, Hlive.
  - intros Hge.
    rewrite (startAnimation_refused now t) by (right; rewrite Hmt, Hit; lia).
    by repeat split.
Qed.

Lemma updateSpeed_restarts_witness :
  (speed (updateSpeed 6000 200 playing3) = 200
   /\ rods (updateSpeed 6000 200 playing3) = rods playing3
   /\ moves (updateSpeed 6000 200 playing3) = moves playing3
   /\ currentMoveIndex (updateSpeed 6000 200 playing3) = currentMoveIndex playing3
   /\ startTime (updateSpeed 6000 200 playing3) = startTime playing3
   /\ isPlaying (updateSpeed 6000 200 playing3) = true
   /\ intervalId (updateSpeed 6000 200 playing3) = Some (nextInterval playing3)
   /\ liveIntervals (updateSpeed 6000 200 playing3) = [(nextInterval playing3, 200)])
  /\ (isPlaying (updateSpeed 6000 200 playing3_at_end) = false
      /\ intervalId (updateSpeed 6000 200 playing3_at_end) = None
      /\ liveIntervals (updateSpeed 6000 200 playing3_at_end) = []).
Proof.
  destruct (updateSpeed_restarts 10 6000 200 playing3 playing3_session eq_refl)
    as (H1 & H2 & H3 & H4 & H5 & H6 & _).
  destruct (updateSpeed_restarts 10 6000 200 playing3_at_end playing3_at_end_session eq_refl)
    as (_ & _ & _ & _ & _ & _ & H7).
  split.
  - split; [exact H1|]. split; [exact H2|]. split; [exact H3|]. split; [exact H4|].
    split; [exact (H5 eq_refl)|]. apply H6. vm_compute. lia.
  - apply H7. vm_compute. lia.
Defined.

(** X10. Destroying a mounted component leaves no interval behind,
    whatever the page had delivered before. *)
Theorem onDestroy_clears (depth : nat) (s : State) :
  session depth s -> liveIntervals (onDestroy s) = [].
Proof.
  intros [[Hn H] _]%session_sound. unfold onDestroy.
  destruct (isPlaying s).
  - destruct H as (i & Hi & Hr & Hl). rewrite Hi.
    destruct i as [|i]; [lia|]. cbn [truthyId]. unfold clearInterval.
    cbn [liveIntervals withIntervals]. rewrite Hl. apply filter_out_only.
  - destruct H as [Hi Hl]. by rewrite Hi.
Qed.

Lemma onDestroy_clears_witness : liveIntervals (onDestroy playing3) = [].
Proof. apply (onDestroy_clears 10 playing3). exact playing3_session. Defined.

(** X11. While a mounted component is not playing, no interval tick, of
    whatever id, changes anything: pause, reset and the automatic stop at
    the end leave no interval that could still move a disk. *)
Theorem paused_ticks_do_nothing (depth : nat) (s : State) (i : nat) :
  session depth s -> isPlaying s = false -> fire i s = Ok s.
Proof.
  intros [[_ H] _]%session_sound Hp. rewrite Hp in H. destruct H as [_ Hl].
  unfold fire. by rewrite (isLive_none i s Hl).
Qed.

Lemma paused3_session : session 10 (stopAnimation playing3).
Proof.
  apply (session_event 10 playing3 (ClickPlayPause 7000) (stopAnimation playing3));
    [exact playing3_session|exact I|vm_compute; reflexivity].
Defined.

Lemma paused_ticks_do_nothing_witness :
  fire 1 (stopAnimation playing3) = Ok (stopAnimation playing3).
Proof.
  apply (paused_ticks_do_nothing 10 (stopAnimation playing3) 1).
  - exact paused3_session.
  - reflexivity.
Defined.

Lemma stopAnimation_stopped (s : State) :
  isPlaying s = false -> truthyId (intervalId s) = None -> stopAnimation s = s.
Proof.
  intros Hp Hi. unfold stopAnimation. cbn [intervalId withPlaying]. rewrite Hi.
  destruct s. cbn in Hp. by subst.
Qed.

Lemma withStartTime_cleared (s : State) : startTime s = None -> withStartTime None s = s.
Proof. intros H. destruct s. cbn in H. by subst. Qed.

(** X12. Reset twice is reset once: in any state from which [resetGame]
    returns, calling it again on the result returns that very result. *)
Theorem resetGame_idempotent (depth : nat) (s s1 : State) :
  resetGame depth s = Ok s1 -> resetGame depth s1 = Ok s1.
Proof.
  unfold resetGame at 1. intros H.
  destruct (stopAnimation_stops s) as (Hp & Hi & _).
  apply initializeGame_Ok in H as (k & Hn & Hk & ->).
  set (t := withStartTime None (stopAnimation s)) in *.
  set (s1 := withIndex 0 _).
  unfold resetGame.
  rewrite (stopAnimation_stopped s1) by assumption.
  rewrite (withStartTime_cleared s1) by reflexivity.
  change (disks s1) with (disks t). rewrite Hn.
  rewrite initializeGame_total by exact Hk.
  subst s1. by rewrite <- Hn.
Qed.

Lemma resetGame_idempotent_witness :
  resetGame 10 (stateOf (resetGame 10 playing3)) = Ok (stateOf (resetGame 10 playing3)).
Proof.
  apply (resetGame_idempotent 10 playing3). vm_compute. reflexivity.
Defined.

(** ** More on the planner *)

Lemma hanoi_between_rods (k : nat) :
  forall a b c : nat,
    a <> b -> a <> c -> b <> c ->
    Forall (fun m => from m <> to m
                     /\ (from m = a \/ from m = b \/ from m = c)
                     /\ (to m = a \/ to m = b \/ to m = c))
           (hanoi k a b c).
Proof.
  induction k as [|k IH]; intros a b c Hab Hac Hbc.
  - constructor; [|constructor]. cbn. split; [exact Hab|]. split; [by left|by right; left].
  - cbn [hanoi]. rewrite !Forall_app. split; [|split].
    + eapply Forall_impl; [apply (IH a c b); congruence|].
      cbn. intros m (H1 & H2 & H3). split; [exact H1|]. split; tauto.
    + constructor; [|constructor]. cbn. split; [exact Hab|]. split; [by left|by right; left].
    + eapply Forall_impl; [apply (IH c b a); congruence|].
      cbn. intros m (H1 & H2 & H3). split; [exact H1|]. split; tauto.
Qed.

(** X13. Called with three different rods, the planner never asks to move
    a disk from a rod to that same rod, and every move it returns goes
    between two of the three rods it was given. *)
Theorem calculateMoves_between_rods
    (depth : nat) (n : Z) (source target auxiliary : nat) (ms : list Move) :
  source <> target -> source <> auxiliary -> target <> auxiliary ->
  calculateMoves depth n source target auxiliary = Some ms ->
  Forall (fun m => from m <> to m
                   /\ (from m = source \/ from m = target \/ from m = auxiliary)
                   /\ (to m = source \/ to m = target \/ to m = auxiliary))
         ms.
Proof.
  intros H1 H2 H3 (k & _ & _ & ->)%calculateMoves_Some.
  by apply hanoi_between_rods.
Qed.

Lemma calculateMoves_between_rods_witness :
  Forall (fun m => from m <> to m
                   /\ (from m = 0 \/ from m = 2 \/ from m = 1)%nat
                   /\ (to m = 0 \/ to m = 2 \/ to m = 1)%nat)
         (hanoi 3 0 2 1).
Proof.
  apply (calculateMoves_between_rods 4 4 0 2 1); [lia|lia|lia|reflexivity].
Defined.

Lemma hanoi_reversed (k : nat) :
  forall a b c : nat, hanoi k b a c = reverseMove <$> reverse (hanoi k a b c).
Proof.
  induction k as [|k IH]; intros a b c; [reflexivity|].
  cbn [hanoi]. rewrite !reverse_app, !fmap_app.
  rewrite <- (IH c b a), <- (IH a c b), <- app_assoc. reflexivity.
Qed.

(** X14. The plan back is the plan read backwards: the moves the planner
    returns for target to source are those it returns for source to
    target, taken in reverse order and each with its two rods exchanged. *)
Theorem calculateMoves_reversed
    (depth : nat) (n : Z) (source target auxiliary : nat) (ms : list Move) :
  calculateMoves depth n source target auxiliary = Some ms ->
  calculateMoves depth n target source auxiliary = Some (reverseMove <$> reverse ms).
Proof.
  intros (k & -> & Hk & ->)%calculateMoves_Some.
  rewrite calculateMoves_hanoi by exact Hk. f_equal. apply hanoi_reversed.
Qed.

Lemma calculateMoves_reversed_witness :
  calculateMoves 3 3 2 0 1
  = Some (reverseMove <$> reverse
            [mkMove 0 2; mkMove 0 1; mkMove 2 1; mkMove 0 2;
             mkMove 1 0; mkMove 1 2; mkMove 0 2]).
Proof. apply (calculateMoves_reversed 3 3 0 2 1). reflexivity. Defined.

(** X15. [initializeGame] with a disk count of 0 or less fails in the
    planner, whose recursion never meets [n === 1], and it fails after
    [disks] and [rods] were assigned: the three rods are left empty, while
    [moves], [totalMoves] and [currentMoveIndex] keep the values of the
    game before. *)
Theorem initializeGame_nonpos (depth : nat) (n : Z) (s : State) :
  n <= 0 ->
  initializeGame depth n s = Throw RangeError (withRods [[]; []; []] (withDisks n s)).
Proof.
  intros Hn. unfold initializeGame.
  rewrite calculateMoves_nonpos by exact Hn.
  unfold initialRod. destruct n as [|p|p]; [reflexivity|lia|reflexivity].
Qed.

Lemma initializeGame_nonpos_witness :
  initializeGame 10 0 game3_step1
  = Throw RangeError (withRods [[]; []; []] (withDisks 0 game3_step1)).
Proof. apply (initializeGame_nonpos 10 0 game3_step1). lia. Defined.
